(** * The bit-oriented LZ77 decoder of main.go

    A shallow embedding of [decodeLZ77] (main.go, lines 35-128) and of the
    inner loop of [generateBitStream] (lines 135-141), followed by the
    properties of the decoder.

    Go values are modelled as follows.
    - [int] is the 64-bit signed integer of the usual platforms: a [Z] kept in
      [min_int, max_int] by [wrap] after every addition, subtraction and shift.
    - a [string] is its sequence of bytes, a [list ascii]; [len] is the number
      of bytes, slicing and indexing fail outside the bounds (a run-time
      panic in Go), which the model records as [None] / [Crash] / [Panic].
    - [strings.Builder] is the list of the bytes written so far. *)

From Stdlib Require Import ZArith List Ascii String Bool Lia.
Import ListNotations.
Local Open Scope Z_scope.

(** ** Go's [int] *)

Module GoInt.

Definition min_int : Z := Eval cbv in - 2 ^ 63.
Definition max_int : Z := Eval cbv in 2 ^ 63 - 1.
Definition modulus : Z := Eval cbv in 2 ^ 64.

(** Two's complement reduction of a mathematical integer to an [int]. *)
Definition wrap (z : Z) : Z := (z - min_int) mod modulus + min_int.

Definition add (a b : Z) : Z := wrap (a + b).
Definition sub (a b : Z) : Z := wrap (a - b).

(** [1 << n] for an [int] shift count [n]: a negative count panics, a
    count of 64 or more shifts the bit out, and a count of 63 lands on the
    sign bit. *)
Definition shl1 (n : Z) : option Z :=
  if n <? 0 then None
  else if 64 <=? n then Some 0
  else Some (wrap (2 ^ n)).

Arguments wrap : simpl never.
Arguments add : simpl never.
Arguments sub : simpl never.
Arguments shl1 : simpl never.

End GoInt.
Import GoInt.

(** ** Go strings as byte sequences *)

Definition bytes : Type := list ascii.

Definition len (s : bytes) : Z := Z.of_nat (List.length s).

(** [s[lo:hi]]: panics unless [0 <= lo <= hi <= len(s)]. *)
Definition slice (s : bytes) (lo hi : Z) : option bytes :=
  if (0 <=? lo) && (lo <=? hi) && (hi <=? len s)
  then Some (firstn (Z.to_nat (hi - lo)) (skipn (Z.to_nat lo) s))
  else None.

(** [s[i]]: panics unless [0 <= i < len(s)]. *)
Definition index (s : bytes) (i : Z) : option ascii :=
  if (0 <=? i) && (i <? len s) then nth_error s (Z.to_nat i) else None.

(** [a == b] on strings. *)
Definition eqb_bytes (a b : bytes) : bool :=
  if list_eq_dec ascii_dec a b then true else false.

Declare Scope bytes_scope.
Delimit Scope bytes_scope with bytes.
Notation "a =? b" := (eqb_bytes a b) : bytes_scope.

Definition code (c : ascii) : Z := Z.of_N (N_of_ascii c).

(** [byte(charCode)]: the conversion keeps the low 8 bits. *)
Definition byte_of_int (z : Z) : ascii := ascii_of_N (Z.to_N (z mod 256)).

(** [string(character)] for a [byte]: Go converts an integer to the UTF-8
    encoding of the code point with that number, so a byte below 128 gives
    the one-byte string and a byte from 128 to 255 gives two bytes. *)
Definition string_of_byte (c : ascii) : bytes :=
  if code c <? 128 then [c]
  else [byte_of_int (192 + code c / 64); byte_of_int (128 + code c mod 64)].

Definition printable (c : ascii) : Prop := 32 <= code c <= 126.

(** ** The decoder *)

(** The three [fmt.Errorf] results, by the position they print:
    "unexpected end of stream at position %d" (line 43),
    "incomplete literal at position %d" (line 53) and
    "incomplete back-reference at position %d" (line 82). *)
Inductive DecodeError : Type :=
| UnexpectedEndOfStream (position : Z)
| IncompleteLiteral (position : Z)
| IncompleteBackReference (position : Z).

(** The local variables of [decodeLZ77] at the head of its loop. *)
Record state : Type := mkState {
  output : bytes;
  searchBuffer : bytes;
  position : Z
}.

(** What one pass through the loop body does: falls through to the next
    iteration (also by [continue]), returns with an error, or panics. *)
Inductive outcome : Type :=
| Next (st : state)
| Fail (out : bytes) (err : DecodeError)
| Crash.

(** What a call does: returns [(output.String(), err)], with [None] for
    [nil]; panics; or, in the model only, uses up the iterations it was
    given (see [decodeLZ77_terminates]: a call never does). *)
Inductive result : Type :=
| Return (out : bytes) (err : option DecodeError)
| Panic
| OutOfFuel.

(** Sequencing of an operation that may panic. *)
Notation "'do' x <- e ; k" :=
  (match e with Some x => k | None => Crash end)
  (at level 10, x pattern, e at level 100, k at level 200).

(** The three loops [for i, bit := range field { if bit == '1' { acc += 1 <<
    (top - i) } }] (lines 61-65 with [top = 7], 89-93 with [top = offsetBits -
    1], 99-103 with [top = lengthBits - 1]). [range] decodes UTF-8, and [i]
    is the byte index at which a rune starts; the rune ['1'] is ASCII and an
    ASCII byte is never part of a longer sequence, so the iterations that
    pass the test are exactly the byte indices holding the byte ['1']. The
    index stays below the length of the field, so [i + 1] does not wrap. *)
Fixpoint rangeBits (top i acc : Z) (field : bytes) : option Z :=
  match field with
  | [] => Some acc
  | bit :: rest =>
      if Ascii.eqb bit "1"
      then match shl1 (sub top i) with
           | Some v => rangeBits top (i + 1) (add acc v) rest
           | None => None
           end
      else rangeBits top (i + 1) acc rest
  end.

(** Lines 111-118, the copy of a back-reference. [n] is the number of
    iterations that [i < length] still allows; [i] stays below [length], an
    [int], so [i++] does not wrap. *)
Fixpoint copyLoop (n : nat) (startPos i : Z) (out sb : bytes)
  : option (bytes * bytes) :=
  match n with
  | O => Some (out, sb)
  | S n' =>
      if len sb <=? add startPos i then Some (out, sb)
      else
        match index sb (add startPos i) with
        | Some character =>
            copyLoop n' startPos (i + 1)
                     (out ++ [character]) (sb ++ string_of_byte character)
        | None => None
        end
  end.

Section Decoder.

Variable bitStream : bytes.
Variables offsetBits lengthBits : Z.

(** Lines 68-77: the printable filter, the two appends and the trim by one
    byte. *)
Definition emitLiteral (charCode : Z) (out sb : bytes) (pos : Z) : outcome :=
  if (32 <=? charCode) && (charCode <=? 126) then
    let character := byte_of_int charCode in
    let out := out ++ [character] in
    let sb := sb ++ string_of_byte character in
    do window <- shl1 offsetBits;
    if window <? len sb then
      do sb' <- slice sb 1 (len sb);
      Next (mkState out sb' pos)
    else Next (mkState out sb pos)
  else Next (mkState out sb pos).

(** Lines 52-77, the branch [flag == "0"]; [pos] is the cursor after the
    flag. *)
Definition literalToken (out sb : bytes) (pos : Z) : outcome :=
  if len bitStream <? add pos 8 then Fail out (IncompleteLiteral pos)
  else
    do literalBits <- slice bitStream pos (add pos 8);
    let pos := add pos 8 in
    do charCode <- rangeBits 7 0 0 literalBits;
    emitLiteral charCode out sb pos.

(** Lines 106-123: the validity test, the copy and the trim to the last
    [1 << offsetBits] bytes. *)
Definition applyBackReference (offset length : Z) (out sb : bytes) (pos : Z)
  : outcome :=
  if (len sb <? offset) || (length =? 0) then Next (mkState out sb pos)
  else
    let startPos := sub (len sb) offset in
    do copied <- copyLoop (Z.to_nat length) startPos 0 out sb;
    let '(out, sb) := copied in
    do window <- shl1 offsetBits;
    if window <? len sb then
      do sb' <- slice sb (sub (len sb) window) (len sb);
      Next (mkState out sb' pos)
    else Next (mkState out sb pos).

(** Lines 81-123, the branch [flag == "1"]. *)
Definition backReferenceToken (out sb : bytes) (pos : Z) : outcome :=
  if len bitStream <? add (add pos offsetBits) lengthBits
  then Fail out (IncompleteBackReference pos)
  else
    do offsetBitStr <- slice bitStream pos (add pos offsetBits);
    let pos := add pos offsetBits in
    do offset <- rangeBits (sub offsetBits 1) 0 0 offsetBitStr;
    do lengthBitStr <- slice bitStream pos (add pos lengthBits);
    let pos := add pos lengthBits in
    do length <- rangeBits (sub lengthBits 1) 0 0 lengthBitStr;
    applyBackReference offset length out sb pos.

(** Lines 42-124, one pass through the loop body. *)
Definition body (st : state) : outcome :=
  let out := output st in
  let sb := searchBuffer st in
  let pos := position st in
  if len bitStream <? add pos 1 then Fail out (UnexpectedEndOfStream pos)
  else
    do flag <- slice bitStream pos (add pos 1);
    let pos := add pos 1 in
    if (flag =? ["0"%char])%bytes then literalToken out sb pos
    else if (flag =? ["1"%char])%bytes then backReferenceToken out sb pos
    else Next (mkState out sb pos).

(** Lines 40-127: [for position < len(bitStream) { body }] and the final
    [return output.String(), nil]. [fuel] bounds the number of passes. *)
Fixpoint loop (fuel : nat) (st : state) : result :=
  if position st <? len bitStream then
    match fuel with
    | O => OutOfFuel
    | S fuel' =>
        match body st with
        | Next st' => loop fuel' st'
        | Fail out err => Return out (Some err)
        | Crash => Panic
        end
    end
  else Return (output st) None.

Definition initial : state := mkState [] [] 0.

(** Every pass advances the cursor, so [len(bitStream)] passes are enough. *)
Definition decodeLZ77 : result := loop (List.length bitStream) initial.

(** The states at the head of the loop during a call. *)
Inductive reached : state -> Prop :=
| reached_initial : reached initial
| reached_next st st' :
    reached st -> position st < len bitStream -> body st = Next st' ->
    reached st'.

End Decoder.

(** Lines 135-141 of [generateBitStream]: the 8 bits of one character,
    [for i := 7; i >= 0; i-- { if (char >> uint(i)) & 1 == 1 ... }]. The
    function ranges over runes; for an ASCII text a rune is a byte. *)
Definition charBits (c : ascii) : bytes :=
  map (fun i => if Z.land (Z.shiftr (code c) i) 1 =? 1
                then "1"%char else "0"%char)
      [7; 6; 5; 4; 3; 2; 1; 0].

(** The value of a field read most significant bit first; a byte other than
    ['1'] counts as a zero bit. *)
Definition bitValue (bit : ascii) : Z := if Ascii.eqb bit "1" then 1 else 0.

Definition bigEndian (field : bytes) : Z :=
  fold_left (fun acc bit => 2 * acc + bitValue bit) field 0.

(** The [w] bytes of the bitstream from position [pos] on. *)
Definition fieldAt (bitStream : bytes) (pos w : Z) : bytes :=
  firstn (Z.to_nat w) (skipn (Z.to_nat pos) bitStream).

(** The all-literal encoding of a text: for each character the flag ['0']
    and the 8 bits of [generateBitStream]. *)
Definition literalStream (text : bytes) : bytes :=
  flat_map (fun c => "0"%char :: charBits c) text.

(** A string literal as a Go string. *)
Definition str (x : string) : bytes := list_ascii_of_string x.

(** The size of the sliding window for a shift count that does not overflow,
    and what the comparisons of lines 74 and 121 leave of the buffer
    otherwise. *)
Definition window (offsetBits : Z) : Z :=
  if offsetBits <=? 62 then 2 ^ offsetBits else 0.

(** The two invariants of the loop: only printable bytes are written and
    kept, and the buffer fits the window. *)
Definition clean (st : state) : Prop :=
  Forall printable (output st) /\ Forall printable (searchBuffer st).

Definition bounded (offsetBits : Z) (st : state) : Prop :=
  len (searchBuffer st) <= window offsetBits.

(** The position that an error prints. *)
Definition errorPosition (err : DecodeError) : Z :=
  match err with
  | UnexpectedEndOfStream p => p
  | IncompleteLiteral p => p
  | IncompleteBackReference p => p
  end.

(** The buffer is the end of the output, as long as the output if that
    fits the window and as long as the window otherwise. *)
Definition mirrors (offsetBits : Z) (st : state) : Prop :=
  exists dropped,
    output st = dropped ++ searchBuffer st
    /\ len (searchBuffer st) = Z.min (len (output st)) (window offsetBits).

(** ** Go's iteration over the runes of a string *)

(** [for i, char := range s] visits the string rune by rune. A byte below
    128 is a rune of its own; otherwise the runtime's [decoderune] reads a
    UTF-8 sequence of 2 to 4 bytes, and gives [runeError] (U+FFFD) and a
    width of one byte where the bytes are no valid sequence (a missing or
    wrong continuation byte, an overlong form, a surrogate, a value above
    U+10FFFF). *)
Definition runeError : Z := 65533.

(** [len(s) > n && locb <= s[n] && s[n] <= hicb], with [locb = 0x80] and
    [hicb = 0xBF]. *)
Definition continues (s : bytes) (n : nat) : bool :=
  match nth_error s n with
  | Some b => (128 <=? code b) && (code b <=? 191)
  | None => false
  end.

(** [rune(s[n] & mask)]. *)
Definition masked (s : bytes) (n : nat) (mask : Z) : Z :=
  match nth_error s n with
  | Some b => Z.land (code b) mask
  | None => 0
  end.

(** The rune at the head of [s], whose first byte is 128 or more, and the
    number of bytes it takes. *)
Definition decoderune (s : bytes) : Z * nat :=
  let s0 := masked s 0 255 in
  if (192 <=? s0) && (s0 <? 224) then
    if continues s 1 then
      let r := Z.lor (Z.shiftl (masked s 0 31) 6) (masked s 1 63) in
      if 127 <? r then (r, 2%nat) else (runeError, 1%nat)
    else (runeError, 1%nat)
  else if (224 <=? s0) && (s0 <? 240) then
    if continues s 1 && continues s 2 then
      let r := Z.lor (Z.lor (Z.shiftl (masked s 0 15) 12)
                            (Z.shiftl (masked s 1 63) 6))
                     (masked s 2 63) in
      if (2047 <? r) && negb ((55296 <=? r) && (r <=? 57343))
      then (r, 3%nat) else (runeError, 1%nat)
    else (runeError, 1%nat)
  else if (240 <=? s0) && (s0 <? 248) then
    if continues s 1 && continues s 2 && continues s 3 then
      let r := Z.lor (Z.lor (Z.lor (Z.shiftl (masked s 0 7) 18)
                                   (Z.shiftl (masked s 1 63) 12))
                            (Z.shiftl (masked s 2 63) 6))
                     (masked s 3 63) in
      if (65535 <? r) && (r <=? 1114111)
      then (r, 4%nat) else (runeError, 1%nat)
    else (runeError, 1%nat)
  else (runeError, 1%nat).

(** The pairs [(i, char)] of the iteration, [i] the byte index at which the
    rune starts. [skip] counts the bytes of the rune before that are still
    to be passed over. *)
Fixpoint rangeFrom (s : bytes) (skip : nat) (i : Z) : list (Z * Z) :=
  match s with
  | [] => []
  | b :: rest =>
      match skip with
      | S skip' => rangeFrom rest skip' (i + 1)
      | O =>
          let '(char, width) :=
            if code b <? 128 then (code b, 1%nat) else decoderune s in
          (i, char) :: rangeFrom rest (Nat.pred width) (i + 1)
      end
  end.

Definition rangeString (s : bytes) : list (Z * Z) := rangeFrom s 0 0.

(** The bit loops of lines 61-65, 89-93 and 99-103 as they are written,
    over the runes of the field: [if bit == '1' { acc += 1 << (top - i) }]. *)
Fixpoint rangeBitsRunes (top acc : Z) (runes : list (Z * Z)) : option Z :=
  match runes with
  | [] => Some acc
  | (i, bit) :: rest =>
      if bit =? 49
      then match shl1 (sub top i) with
           | Some v => rangeBitsRunes top (add acc v) rest
           | None => None
           end
      else rangeBitsRunes top acc rest
  end.

(** ** [generateBitStream] *)

(** Lines 135-141: the 8 symbols written for one rune. *)
Definition runeBits (char : Z) : bytes :=
  map (fun i => if Z.land (Z.shiftr char i) 1 =? 1
                then "1"%char else "0"%char)
      [7; 6; 5; 4; 3; 2; 1; 0].

(** Lines 131-144. *)
Definition generateBitStream (text : bytes) : bytes :=
  flat_map (fun p => runeBits (snd p)) (rangeString text).

(** ** The frequency table of [calculateShannonEntropy] *)

(** [charCounts[char]++] on a [map[rune]int], kept as the list of its
    entries: a rune that has no entry reads as 0. *)
Fixpoint increment (counts : list (Z * Z)) (char : Z) : list (Z * Z) :=
  match counts with
  | [] => [(char, add 0 1)]
  | (key, count) :: rest =>
      if key =? char then (key, add count 1) :: rest
      else (key, count) :: increment rest char
  end.

(** Lines 17-20: the table after the loop over the runes of [data],
    [tally] from the table so far. The entropy that lines 22-31 compute from
    it is floating point and is not modelled. *)
Definition tally (runes : list (Z * Z)) (counts : list (Z * Z))
  : list (Z * Z) :=
  fold_left (fun counts p => increment counts (snd p)) runes counts.

Definition charCounts (data : bytes) : list (Z * Z) :=
  tally (rangeString data) [].

(** [charCounts[char]]. *)
Fixpoint countOf (counts : list (Z * Z)) (char : Z) : Z :=
  match counts with
  | [] => 0
  | (key, count) :: rest => if key =? char then count else countOf rest char
  end.

(** The sum of the entries of the table. *)
Definition totalCount (counts : list (Z * Z)) : Z :=
  fold_right (fun p acc => snd p + acc) 0 counts.

(** ** Arithmetic of [int] *)

Lemma wrap_small z : min_int <= z <= max_int -> wrap z = z.
Proof.
  unfold wrap, min_int, max_int, modulus. intros H.
  rewrite Z.mod_small; lia.
Qed.

Lemma wrap_range z : min_int <= wrap z <= max_int.
Proof.
  unfold wrap, min_int, max_int, modulus.
  pose proof (Z.mod_pos_bound (z - -9223372036854775808) 18446744073709551616).
  lia.
Qed.

Lemma wrap_congr z : exists k, wrap z = z + k * modulus.
Proof.
  unfold wrap, min_int, modulus.
  exists (- ((z - -9223372036854775808) / 18446744073709551616)).
  pose proof (Z.div_mod (z - -9223372036854775808) 18446744073709551616).
  lia.
Qed.

Lemma pow2_pos k : 0 <= k -> 0 < 2 ^ k.
Proof. intros. apply Z.pow_pos_nonneg; lia. Qed.

Lemma pow2_le_62 k : 0 <= k <= 62 -> 0 < 2 ^ k <= 4611686018427387904.
Proof.
  intros H. split; [apply pow2_pos; lia|].
  change 4611686018427387904 with (2 ^ 62). apply Z.pow_le_mono_r; lia.
Qed.

Lemma pow2_double k : 0 <= k -> 2 ^ (k + 1) = 2 * 2 ^ k.
Proof. intros. rewrite Z.pow_add_r by lia. change (2 ^ 1) with 2. lia. Qed.

Lemma shl1_small n : 0 <= n <= 62 -> shl1 n = Some (2 ^ n).
Proof.
  intros H. unfold shl1.
  destruct (Z.ltb_spec n 0); [lia|].
  destruct (Z.leb_spec 64 n); [lia|].
  rewrite wrap_small; [reflexivity|].
  pose proof (pow2_le_62 n H). unfold min_int, max_int. lia.
Qed.

Lemma shl1_63 : shl1 63 = Some min_int.
Proof. reflexivity. Qed.

Lemma shl1_big n : 64 <= n -> shl1 n = Some 0.
Proof.
  intros H. unfold shl1.
  destruct (Z.ltb_spec n 0); [lia|].
  destruct (Z.leb_spec 64 n); [reflexivity|lia].
Qed.

(** ** Slices and indices *)

Lemma len_nonneg (l : bytes) : 0 <= len l.
Proof. unfold len. lia. Qed.

Lemma len_app (l1 l2 : bytes) : len (l1 ++ l2) = len l1 + len l2.
Proof. unfold len. rewrite length_app. lia. Qed.

Lemma len_cons c (l : bytes) : len (c :: l) = len l + 1.
Proof. unfold len. simpl List.length. lia. Qed.

Lemma len_snoc (l : bytes) c : len (l ++ [c]) = len l + 1.
Proof. rewrite len_app, len_cons. reflexivity. Qed.

Lemma len_nil : len [] = 0.
Proof. reflexivity. Qed.

Lemma slice_ok sq lo hi :
  0 <= lo -> lo <= hi -> hi <= len sq -> slice sq lo hi = Some (fieldAt sq lo (hi - lo)).
Proof.
  intros H1 H2 H3. unfold slice, fieldAt.
  destruct (Z.leb_spec 0 lo); [|lia].
  destruct (Z.leb_spec lo hi); [|lia].
  destruct (Z.leb_spec hi (len sq)); [|lia].
  reflexivity.
Qed.

Lemma slice_inv sq lo hi r :
  slice sq lo hi = Some r ->
  0 <= lo /\ lo <= hi /\ hi <= len sq /\ r = fieldAt sq lo (hi - lo).
Proof.
  unfold slice, fieldAt.
  destruct (Z.leb_spec 0 lo); simpl; [|discriminate].
  destruct (Z.leb_spec lo hi); simpl; [|discriminate].
  destruct (Z.leb_spec hi (len sq)); simpl; [|discriminate].
  intros [= <-]. auto.
Qed.

Lemma len_fieldAt sq pos w :
  0 <= pos -> 0 <= w -> pos + w <= len sq -> len (fieldAt sq pos w) = w.
Proof.
  unfold fieldAt, len. intros.
  rewrite length_firstn, length_skipn. lia.
Qed.

Lemma fieldAt_app_here (pre mid post : bytes) :
  fieldAt (pre ++ mid ++ post) (len pre) (len mid) = mid.
Proof.
  unfold fieldAt, len. rewrite !Nat2Z.id.
  rewrite skipn_app, skipn_all, Nat.sub_diag. simpl.
  rewrite firstn_app, firstn_all, Nat.sub_diag. simpl.
  apply app_nil_r.
Qed.

Lemma fieldAt_one sq pos c :
  0 <= pos -> nth_error sq (Z.to_nat pos) = Some c -> fieldAt sq pos 1 = [c].
Proof.
  unfold fieldAt. intros _ H.
  change (Z.to_nat 1) with 1%nat.
  revert H. generalize (Z.to_nat pos) as n. intros n. revert sq.
  induction n as [|n IH]; intros [|x sq]; simpl; try discriminate.
  - intros [= ->]. reflexivity.
  - apply IH.
Qed.

Lemma index_inv sq i c :
  index sq i = Some c -> 0 <= i < len sq /\ nth_error sq (Z.to_nat i) = Some c.
Proof.
  unfold index.
  destruct (Z.leb_spec 0 i); simpl; [|discriminate].
  destruct (Z.ltb_spec i (len sq)); simpl; [|discriminate].
  auto.
Qed.

Lemma index_ok sq i :
  0 <= i < len sq -> exists c, index sq i = Some c /\ nth_error sq (Z.to_nat i) = Some c.
Proof.
  intros H. unfold index.
  destruct (Z.leb_spec 0 i); [|lia].
  destruct (Z.ltb_spec i (len sq)); [|lia]. simpl.
  destruct (nth_error sq (Z.to_nat i)) eqn:E; [eauto|].
  apply nth_error_None in E. unfold len in *. lia.
Qed.

Lemma eqb_bytes_spec a b : reflect (a = b) (a =? b)%bytes.
Proof.
  unfold eqb_bytes. destruct (list_eq_dec ascii_dec a b); constructor; assumption.
Qed.

(** ** Every pass advances the cursor *)

Lemma add_one_neq z : add z 1 <> z.
Proof.
  unfold add. destruct (wrap_congr (z + 1)) as [k Hk]. rewrite Hk.
  unfold modulus. lia.
Qed.

Section Progress.

Variable bitStream : bytes.
Variables offsetBits lengthBits : Z.

Local Abbreviation body := (body bitStream offsetBits lengthBits).
Local Abbreviation loop := (loop bitStream offsetBits lengthBits).

Lemma emitLiteral_position charCode out sb pos st' :
  emitLiteral offsetBits charCode out sb pos = Next st' -> position st' = pos.
Proof.
  unfold emitLiteral.
  destruct (_ && _); [|intros [= <-]; reflexivity].
  destruct (shl1 offsetBits); [|discriminate].
  destruct (_ <? _).
  - destruct (slice _ _ _); [|discriminate]. intros [= <-]. reflexivity.
  - intros [= <-]. reflexivity.
Qed.

Lemma applyBackReference_position offset length out sb pos st' :
  applyBackReference offsetBits offset length out sb pos = Next st' ->
  position st' = pos.
Proof.
  unfold applyBackReference.
  destruct (_ || _); [intros [= <-]; reflexivity|].
  destruct (copyLoop _ _ _ _ _) as [[out1 sb1]|]; [|discriminate].
  destruct (shl1 offsetBits); [|discriminate].
  destruct (_ <? _).
  - destruct (slice _ _ _); [|discriminate]. intros [= <-]. reflexivity.
  - intros [= <-]. reflexivity.
Qed.

Lemma body_advances st st' : body st = Next st' -> position st < position st'.
Proof.
  unfold body.
  destruct (_ <? _); [discriminate|].
  destruct (slice bitStream _ _) as [flag|] eqn:Hflag; [|discriminate].
  apply slice_inv in Hflag. destruct Hflag as (H0 & H1 & H2 & _).
  pose proof (add_one_neq (position st)) as Hne.
  destruct (flag =? _)%bytes.
  - unfold literalToken.
    destruct (_ <? _); [discriminate|].
    destruct (slice bitStream _ _) as [bits|] eqn:Hbits; [|discriminate].
    apply slice_inv in Hbits. destruct Hbits as (_ & H3 & _).
    destruct (rangeBits _ _ _ _); [|discriminate].
    intros H. apply emitLiteral_position in H. lia.
  - destruct (flag =? _)%bytes.
    + unfold backReferenceToken.
      destruct (_ <? _); [discriminate|].
      destruct (slice bitStream _ _) as [ofs|] eqn:Hofs; [|discriminate].
      apply slice_inv in Hofs. destruct Hofs as (_ & H3 & _).
      destruct (rangeBits _ _ _ _); [|discriminate].
      destruct (slice bitStream _ _) as [lns|] eqn:Hlns; [|discriminate].
      apply slice_inv in Hlns. destruct Hlns as (_ & H4 & _).
      destruct (rangeBits _ _ _ _); [|discriminate].
      intros H. apply applyBackReference_position in H. lia.
    + intros [= <-]. simpl. lia.
Qed.

Lemma loop_fuel_enough fuel st :
  len bitStream - position st <= Z.of_nat fuel -> loop fuel st <> OutOfFuel.
Proof.
  revert st. induction fuel as [|fuel IH]; intros st Hfuel; simpl.
  - destruct (Z.ltb_spec (position st) (len bitStream)); [lia|discriminate].
  - destruct (Z.ltb_spec (position st) (len bitStream)); [|discriminate].
    destruct (body st) as [st'| |] eqn:Hbody; try discriminate.
    apply IH. apply body_advances in Hbody. lia.
Qed.

(** The number of passes that [decodeLZ77] allows is never used up. *)
Lemma decodeLZ77_terminates :
  decodeLZ77 bitStream offsetBits lengthBits <> OutOfFuel.
Proof.
  unfold decodeLZ77. apply loop_fuel_enough. simpl. unfold len. lia.
Qed.

(** More passes than needed change nothing. *)
Lemma loop_fuel_mono fuel st fuel' :
  loop fuel st <> OutOfFuel -> (fuel <= fuel')%nat -> loop fuel' st = loop fuel st.
Proof.
  revert st fuel'. induction fuel as [|fuel IH]; intros st fuel' Hne Hle.
  - simpl in *. destruct fuel'; simpl;
      destruct (position st <? len bitStream); congruence.
  - destruct fuel' as [|fuel']; [lia|]. simpl in *.
    destruct (position st <? len bitStream); [|reflexivity].
    destruct (body st); try reflexivity.
    apply IH; [assumption|lia].
Qed.

(** A call is the loop run on from any state that it reaches. *)
Lemma decodeLZ77_from_reached st :
  reached bitStream offsetBits lengthBits st ->
  decodeLZ77 bitStream offsetBits lengthBits
  = loop (Z.to_nat (len bitStream - position st)) st.
Proof.
  induction 1 as [|st st' Hr IH Hpos Hbody].
  - unfold decodeLZ77. f_equal. cbn [position initial]. unfold len. lia.
  - rewrite IH. pose proof (body_advances _ _ Hbody) as Hadv.
    destruct (Z.to_nat (len bitStream - position st)) as [|fuel] eqn:Hfuel; [lia|].
    simpl.
    destruct (Z.ltb_spec (position st) (len bitStream)); [|lia].
    rewrite Hbody. apply loop_fuel_mono; [|lia].
    apply loop_fuel_enough. lia.
Qed.

End Progress.

(** ** The three bit loops read a big-endian number *)

Lemma bitValue_range bit : 0 <= bitValue bit <= 1.
Proof. unfold bitValue. destruct (Ascii.eqb bit "1"); lia. Qed.

Lemma bigEndian_fold field a :
  fold_left (fun acc bit => 2 * acc + bitValue bit) field a
  = a * 2 ^ len field + bigEndian field.
Proof.
  unfold bigEndian. revert a.
  induction field as [|bit rest IH]; intros a; cbn [fold_left].
  - rewrite len_nil. simpl. lia.
  - rewrite IH. rewrite (IH (2 * 0 + bitValue bit)).
    rewrite len_cons, pow2_double by apply len_nonneg.
    lia.
Qed.

Lemma bigEndian_cons bit rest :
  bigEndian (bit :: rest) = bitValue bit * 2 ^ len rest + bigEndian rest.
Proof.
  unfold bigEndian at 1. cbn [fold_left]. rewrite bigEndian_fold. lia.
Qed.

Lemma bigEndian_range field : 0 <= bigEndian field < 2 ^ len field.
Proof.
  induction field as [|bit rest IH].
  - rewrite len_nil. cbv. split; [discriminate|reflexivity].
  - rewrite bigEndian_cons, len_cons, pow2_double by apply len_nonneg.
    pose proof (bitValue_range bit). pose proof (pow2_pos (len rest) (len_nonneg rest)).
    nia.
Qed.

Lemma rangeBits_value field : forall w i acc,
  0 <= i -> i + len field = w -> w <= 62 ->
  0 <= acc -> acc + 2 ^ len field <= 2 ^ w ->
  rangeBits (w - 1) i acc field = Some (acc + bigEndian field).
Proof.
  induction field as [|bit rest IH]; intros w i acc Hi Hw Hw62 Hacc Hroom.
  - simpl. f_equal. unfold bigEndian. simpl. lia.
  - rewrite len_cons in Hw, Hroom.
    pose proof (len_nonneg rest) as Hrest.
    assert (Hpw : 0 < 2 ^ w <= 4611686018427387904) by (apply pow2_le_62; lia).
    assert (Hpr : 0 < 2 ^ len rest) by (apply pow2_pos; lia).
    rewrite pow2_double in Hroom by lia.
    rewrite bigEndian_cons. unfold bitValue. simpl rangeBits.
    destruct (Ascii.eqb bit "1").
    + assert (Hsub : sub (w - 1) i = len rest).
      { unfold sub. rewrite wrap_small; unfold min_int, max_int; lia. }
      rewrite Hsub, shl1_small by lia.
      assert (Hadd : add acc (2 ^ len rest) = acc + 2 ^ len rest).
      { unfold add. rewrite wrap_small; unfold min_int, max_int; lia. }
      rewrite Hadd, (IH w) by lia. f_equal; lia.
    + rewrite (IH w) by lia. f_equal; lia.
Qed.

(** A field of [w <= 62] bits is read as its big-endian value, without a
    panic and without overflow. *)
Lemma rangeBits_bigEndian field w :
  len field = w -> w <= 62 ->
  rangeBits (sub w 1) 0 0 field = Some (bigEndian field).
Proof.
  intros Hw Hw62. pose proof (len_nonneg field).
  assert (Hsub : sub w 1 = w - 1).
  { unfold sub. rewrite wrap_small; unfold min_int, max_int; lia. }
  rewrite Hsub, (rangeBits_value field w 0 0); try lia.
  - reflexivity.
  - rewrite Hw. lia.
Qed.

Lemma rangeBits_literal field :
  len field = 8 -> rangeBits 7 0 0 field = Some (bigEndian field).
Proof. intros H. apply (rangeBits_bigEndian field 8); [assumption|lia]. Qed.

(** Whatever the field, the loop leaves an [int]. *)
Lemma rangeBits_int field : forall top i acc v,
  min_int <= acc <= max_int -> rangeBits top i acc field = Some v ->
  min_int <= v <= max_int.
Proof.
  induction field as [|bit rest IH]; intros top i acc v Hacc; simpl.
  - intros [= <-]. assumption.
  - destruct (Ascii.eqb bit "1").
    + destruct (shl1 _); [|discriminate]. apply IH. apply wrap_range.
    + apply IH. assumption.
Qed.

Lemma bigEndian_charBits c : bigEndian (charBits c) = code c.
Proof. destruct c as [[] [] [] [] [] [] [] []]; reflexivity. Qed.

Lemma len_charBits c : len (charBits c) = 8.
Proof. reflexivity. Qed.

Lemma byte_of_int_code c : byte_of_int (code c) = c.
Proof. destruct c as [[] [] [] [] [] [] [] []]; reflexivity. Qed.

Lemma code_byte_of_int z : 0 <= z <= 255 -> code (byte_of_int z) = z.
Proof.
  intros H. unfold code, byte_of_int.
  rewrite N_ascii_embedding.
  - rewrite Z2N.id; [apply Z.mod_small; lia|]. apply Z.mod_pos_bound. lia.
  - apply N2Z.inj_lt. rewrite Z2N.id by (apply Z.mod_pos_bound; lia).
    change (Z.of_N 256) with 256. apply Z.mod_pos_bound. lia.
Qed.

Lemma string_of_byte_printable c : printable c -> string_of_byte c = [c].
Proof.
  unfold printable, string_of_byte. intros H.
  destruct (Z.ltb_spec (code c) 128); [reflexivity|lia].
Qed.

(** ** The copy loop *)

Lemma Forall_fieldAt (P : ascii -> Prop) sq pos w :
  Forall P sq -> Forall P (fieldAt sq pos w).
Proof.
  intros H. unfold fieldAt.
  rewrite <- (firstn_skipn (Z.to_nat pos) sq) in H.
  apply Forall_app in H. destruct H as [_ H].
  rewrite <- (firstn_skipn (Z.to_nat w) (skipn (Z.to_nat pos) sq)) in H.
  apply Forall_app in H. apply H.
Qed.

(** From a buffer of printable bytes the loop appends the same bytes, at
    most [n] of them and all printable, to the output and to the buffer. *)
Lemma copyLoop_appends n : forall startPos i out sb out' sb',
  Forall printable sb ->
  copyLoop n startPos i out sb = Some (out', sb') ->
  exists copied,
    out' = out ++ copied /\ sb' = sb ++ copied /\
    Forall printable copied /\ len copied <= Z.of_nat n.
Proof.
  induction n as [|n IH]; intros startPos i out sb out' sb' Hsb; simpl.
  - intros [= <- <-]. exists []. rewrite !app_nil_r, len_nil. auto with zarith.
  - destruct (_ <=? _).
    + intros [= <- <-]. exists []. rewrite !app_nil_r, len_nil.
      repeat split; auto. lia.
    + destruct (index sb _) as [c|] eqn:Hc; [|discriminate].
      apply index_inv in Hc. destruct Hc as [_ Hc].
      apply nth_error_In in Hc.
      assert (Hp : printable c) by (rewrite Forall_forall in Hsb; auto).
      rewrite (string_of_byte_printable c Hp). intros H.
      apply IH in H; [|apply Forall_app; auto].
      destruct H as (cp & -> & -> & Hcp & Hlen).
      exists (c :: cp). rewrite <- !app_assoc. simpl.
      repeat split; auto. rewrite len_cons. lia.
Qed.

(** ** What the two token handlers leave behind *)

Section Handlers.

Variable offsetBits : Z.

Lemma emitLiteral_inv charCode out sb pos st' :
  emitLiteral offsetBits charCode out sb pos = Next st' ->
  (~ 32 <= charCode <= 126 /\ st' = mkState out sb pos)
  \/ (32 <= charCode <= 126 /\
      exists w, shl1 offsetBits = Some w /\
        output st' = out ++ [byte_of_int charCode] /\ position st' = pos /\
        ((w < len sb + 1 /\
          searchBuffer st' = fieldAt (sb ++ [byte_of_int charCode]) 1 (len sb))
         \/ (len sb + 1 <= w /\
             searchBuffer st' = sb ++ [byte_of_int charCode]))).
Proof.
  unfold emitLiteral.
  destruct (Z.leb_spec 32 charCode); simpl;
    [|intros [= <-]; left; split; [lia|reflexivity]].
  destruct (Z.leb_spec charCode 126); simpl;
    [|intros [= <-]; left; split; [lia|reflexivity]].
  assert (Hp : printable (byte_of_int charCode)).
  { unfold printable. rewrite code_byte_of_int; lia. }
  rewrite (string_of_byte_printable _ Hp).
  destruct (shl1 offsetBits) as [w|]; [|discriminate].
  rewrite len_snoc.
  destruct (Z.ltb_spec w (len sb + 1)).
  - destruct (slice _ _ _) as [sb'|] eqn:Hs; [|discriminate].
    apply slice_inv in Hs. destruct Hs as (_ & _ & _ & ->).
    intros [= <-]. right. split; [lia|]. exists w. simpl. repeat split.
    left. split; [lia|]. f_equal. lia.
  - intros [= <-]. right. split; [lia|]. exists w. simpl. repeat split.
    right. split; [lia|reflexivity].
Qed.

Lemma applyBackReference_inv offset length out sb pos st' :
  Forall printable sb ->
  applyBackReference offsetBits offset length out sb pos = Next st' ->
  ((len sb < offset \/ length = 0) /\ st' = mkState out sb pos)
  \/ (offset <= len sb /\ length <> 0 /\
      exists copied w,
        copyLoop (Z.to_nat length) (sub (len sb) offset) 0 out sb
          = Some (out ++ copied, sb ++ copied) /\
        Forall printable copied /\ len copied <= Z.max 0 length /\
        shl1 offsetBits = Some w /\
        output st' = out ++ copied /\ position st' = pos /\
        ((w < len sb + len copied /\
          0 <= sub (len sb + len copied) w <= len sb + len copied /\
          searchBuffer st' =
            fieldAt (sb ++ copied) (sub (len sb + len copied) w)
                    (len sb + len copied - sub (len sb + len copied) w))
         \/ (len sb + len copied <= w /\ searchBuffer st' = sb ++ copied))).
Proof.
  intros Hsb. unfold applyBackReference.
  destruct (Z.ltb_spec (len sb) offset); simpl;
    [intros [= <-]; left; split; [lia|reflexivity]|].
  destruct (Z.eqb_spec length 0); simpl;
    [intros [= <-]; left; split; [lia|reflexivity]|].
  destruct (copyLoop _ _ _ _ _) as [[out1 sb1]|] eqn:Hcopy; [|discriminate].
  destruct (copyLoop_appends _ _ _ _ _ _ _ Hsb Hcopy) as (cp & -> & -> & Hcp & Hlen).
  destruct (shl1 offsetBits) as [w|]; [|discriminate].
  rewrite len_app.
  destruct (Z.ltb_spec w (len sb + len cp)).
  - destruct (slice _ _ _) as [sb'|] eqn:Hs; [|discriminate].
    apply slice_inv in Hs. destruct Hs as (? & ? & _ & ->).
    intros [= <-]. right. split; [lia|]. split; [assumption|].
    exists cp, w. simpl. repeat split; try assumption; try lia.
    left. repeat split; assumption.
  - intros [= <-]. right. split; [lia|]. split; [assumption|].
    exists cp, w. simpl. repeat split; try assumption; try lia.
    right. split; [lia|reflexivity].
Qed.

End Handlers.

(** ** Invariants of the loop *)

Section Invariants.

Variable bitStream : bytes.
Variables offsetBits lengthBits : Z.

Local Abbreviation body := (body bitStream offsetBits lengthBits).
Local Abbreviation loop := (loop bitStream offsetBits lengthBits).
Local Abbreviation reached := (reached bitStream offsetBits lengthBits).

Lemma emitLiteral_clean charCode out sb pos st' :
  Forall printable out -> Forall printable sb ->
  emitLiteral offsetBits charCode out sb pos = Next st' -> clean st'.
Proof.
  intros Hout Hsb H. apply emitLiteral_inv in H.
  destruct H as [[_ ->]|(Hc & w & _ & Ho & _ & Hs)]; [split; assumption|].
  assert (Hp : Forall printable [byte_of_int charCode]).
  { constructor; [|constructor]. unfold printable.
    rewrite code_byte_of_int; lia. }
  split.
  - rewrite Ho. apply Forall_app; auto.
  - destruct Hs as [[_ ->]|[_ ->]].
    + apply Forall_fieldAt, Forall_app; auto.
    + apply Forall_app; auto.
Qed.

Lemma emitLiteral_bounded charCode out sb pos st' :
  0 <= offsetBits -> len sb <= window offsetBits ->
  emitLiteral offsetBits charCode out sb pos = Next st' -> bounded offsetBits st'.
Proof.
  intros Hob Hb H. apply emitLiteral_inv in H. unfold bounded.
  destruct H as [[_ ->]|(Hc & w & Hw & _ & _ & Hs)]; [assumption|].
  pose proof (len_nonneg sb).
  destruct Hs as [[_ ->]|[Hle ->]].
  - rewrite len_fieldAt; rewrite ?len_snoc; lia.
  - rewrite len_snoc. unfold window in *.
    destruct (Z.leb_spec offsetBits 62).
    + rewrite shl1_small in Hw by lia. injection Hw as <-. assumption.
    + destruct (Z.eq_dec offsetBits 63) as [->|].
      * rewrite shl1_63 in Hw. injection Hw as <-. unfold min_int in Hle. lia.
      * rewrite shl1_big in Hw by lia. injection Hw as <-. lia.
Qed.

Lemma applyBackReference_clean offset length out sb pos st' :
  Forall printable out -> Forall printable sb ->
  applyBackReference offsetBits offset length out sb pos = Next st' ->
  clean st'.
Proof.
  intros Hout Hsb H. apply applyBackReference_inv in H; [|assumption].
  destruct H as [[_ ->]|(_ & _ & cp & w & _ & Hcp & _ & _ & Ho & _ & Hs)];
    [split; assumption|].
  split.
  - rewrite Ho. apply Forall_app; auto.
  - destruct Hs as [(_ & _ & ->)|[_ ->]].
    + apply Forall_fieldAt, Forall_app; auto.
    + apply Forall_app; auto.
Qed.

Lemma applyBackReference_bounded offset length out sb pos st' :
  0 <= offsetBits -> length <= max_int ->
  Forall printable sb -> len sb <= window offsetBits ->
  applyBackReference offsetBits offset length out sb pos = Next st' ->
  bounded offsetBits st'.
Proof.
  intros Hob Hlen Hsb Hb H. apply applyBackReference_inv in H; [|assumption].
  unfold bounded.
  destruct H as [[_ ->]|(_ & _ & cp & w & _ & _ & Hcp & Hw & _ & _ & Hs)];
    [assumption|].
  pose proof (len_nonneg sb). pose proof (len_nonneg cp).
  unfold window in *.
  destruct (Z.leb_spec offsetBits 62).
  - rewrite shl1_small in Hw by lia. injection Hw as <-.
    pose proof (pow2_le_62 offsetBits ltac:(lia)).
    destruct Hs as [(Hlt & Hlo & ->)|[Hle ->]].
    + unfold sub in *. rewrite wrap_small in * by (unfold min_int, max_int in *; lia).
      rewrite len_fieldAt; rewrite ?len_app; lia.
    + rewrite len_app. lia.
  - destruct (Z.eq_dec offsetBits 63) as [->|].
    + rewrite shl1_63 in Hw. injection Hw as <-.
      destruct Hs as [(Hlt & Hlo & ->)|[Hle ->]].
      * exfalso. unfold sub in Hlo.
        destruct (wrap_congr (len sb + len cp - min_int)) as [k Hk].
        pose proof (wrap_range (len sb + len cp - min_int)).
        unfold min_int, max_int, modulus in *. lia.
      * unfold min_int in Hle. lia.
    + rewrite shl1_big in Hw by lia. injection Hw as <-.
      destruct Hs as [(Hlt & Hlo & ->)|[Hle ->]].
      * unfold sub in *. rewrite wrap_small in * by (unfold min_int, max_int in *; lia).
        rewrite len_fieldAt; rewrite ?len_app; lia.
      * rewrite len_app. lia.
Qed.

Lemma emitLiteral_not_fail charCode out sb pos o e :
  emitLiteral offsetBits charCode out sb pos <> Fail o e.
Proof.
  unfold emitLiteral.
  destruct (_ && _); [|discriminate].
  destruct (shl1 offsetBits); [|discriminate].
  destruct (_ <? _); [|discriminate].
  destruct (slice _ _ _); discriminate.
Qed.

Lemma applyBackReference_not_fail offset length out sb pos o e :
  applyBackReference offsetBits offset length out sb pos <> Fail o e.
Proof.
  unfold applyBackReference.
  destruct (_ || _); [discriminate|].
  destruct (copyLoop _ _ _ _ _) as [[out1 sb1]|]; [|discriminate].
  destruct (shl1 offsetBits); [|discriminate].
  destruct (_ <? _); [|discriminate].
  destruct (slice _ _ _); discriminate.
Qed.

(** An error carries the output as it was at the head of the pass. *)
Lemma body_fail_output st out e : body st = Fail out e -> out = output st.
Proof.
  unfold body.
  destruct (_ <? _); [intros [= <- _]; reflexivity|].
  destruct (slice bitStream _ _) as [flag|]; [|discriminate].
  destruct (flag =? _)%bytes.
  - unfold literalToken.
    destruct (_ <? _); [intros [= <- _]; reflexivity|].
    destruct (slice bitStream _ _); [|discriminate].
    destruct (rangeBits _ _ _ _); [|discriminate].
    intros H. apply emitLiteral_not_fail in H. contradiction.
  - destruct (flag =? _)%bytes; [|discriminate].
    unfold backReferenceToken.
    destruct (_ <? _); [intros [= <- _]; reflexivity|].
    destruct (slice bitStream _ _); [|discriminate].
    destruct (rangeBits _ _ _ _); [|discriminate].
    destruct (slice bitStream _ _); [|discriminate].
    destruct (rangeBits _ _ _ _); [|discriminate].
    intros H. apply applyBackReference_not_fail in H. contradiction.
Qed.

Lemma body_clean st st' : clean st -> body st = Next st' -> clean st'.
Proof.
  intros [Hout Hsb]. unfold body.
  destruct (_ <? _); [discriminate|].
  destruct (slice bitStream _ _) as [flag|]; [|discriminate].
  destruct (flag =? _)%bytes.
  - unfold literalToken.
    destruct (_ <? _); [discriminate|].
    destruct (slice bitStream _ _); [|discriminate].
    destruct (rangeBits _ _ _ _); [|discriminate].
    apply emitLiteral_clean; assumption.
  - destruct (flag =? _)%bytes; [|intros [= <-]; split; assumption].
    unfold backReferenceToken.
    destruct (_ <? _); [discriminate|].
    destruct (slice bitStream _ _); [|discriminate].
    destruct (rangeBits _ _ _ _); [|discriminate].
    destruct (slice bitStream _ _); [|discriminate].
    destruct (rangeBits _ _ _ _); [|discriminate].
    apply applyBackReference_clean; assumption.
Qed.

Lemma body_bounded st st' :
  0 <= offsetBits -> clean st -> bounded offsetBits st -> body st = Next st' ->
  bounded offsetBits st'.
Proof.
  intros Hob [Hout Hsb] Hb. unfold body.
  destruct (_ <? _); [discriminate|].
  destruct (slice bitStream _ _) as [flag|]; [|discriminate].
  destruct (flag =? _)%bytes.
  - unfold literalToken.
    destruct (_ <? _); [discriminate|].
    destruct (slice bitStream _ _); [|discriminate].
    destruct (rangeBits _ _ _ _); [|discriminate].
    apply emitLiteral_bounded; assumption.
  - destruct (flag =? _)%bytes; [|intros [= <-]; assumption].
    unfold backReferenceToken.
    destruct (_ <? _); [discriminate|].
    destruct (slice bitStream _ _); [|discriminate].
    destruct (rangeBits _ _ _ _); [|discriminate].
    destruct (slice bitStream _ _); [|discriminate].
    destruct (rangeBits _ _ _ _) as [length|] eqn:Hlen; [|discriminate].
    apply rangeBits_int in Hlen; [|unfold min_int, max_int; lia].
    apply applyBackReference_bounded; try assumption. lia.
Qed.

Lemma initial_clean : clean initial.
Proof. split; constructor. Qed.

Lemma reached_clean st : reached st -> clean st.
Proof.
  induction 1 as [|st st' _ IH _ Hbody]; [apply initial_clean|].
  eapply body_clean; eassumption.
Qed.

Lemma reached_bounded st : 0 <= offsetBits -> reached st -> bounded offsetBits st.
Proof.
  intros Hob. induction 1 as [|st st' Hr IH _ Hbody].
  - unfold bounded, window. simpl. rewrite len_nil.
    destruct (offsetBits <=? 62); [|lia].
    pose proof (pow2_pos offsetBits Hob). lia.
  - eapply body_bounded; try eassumption. apply reached_clean. assumption.
Qed.

Lemma window_le : 0 <= offsetBits -> window offsetBits <= 2 ^ offsetBits.
Proof.
  intros Hob. unfold window. pose proof (pow2_pos offsetBits Hob).
  destruct (offsetBits <=? 62); lia.
Qed.

(** A call returns the output of a state that it reached. *)
Lemma loop_returns_reached fuel : forall st out err,
  reached st -> loop fuel st = Return out err ->
  exists st', reached st' /\ out = output st'.
Proof.
  induction fuel as [|fuel IH]; intros st out err Hr; simpl.
  - destruct (Z.ltb_spec (position st) (len bitStream)); [discriminate|].
    intros [= <- _]. eauto.
  - destruct (Z.ltb_spec (position st) (len bitStream));
      [|intros [= <- _]; eauto].
    destruct (body st) as [st'|o e|] eqn:Hbody; [| |discriminate].
    + apply IH. econstructor; eassumption.
    + intros [= <- _]. apply body_fail_output in Hbody. eauto.
Qed.

End Invariants.

Lemma reached_position bitStream offsetBits lengthBits st :
  reached bitStream offsetBits lengthBits st -> 0 <= position st.
Proof.
  induction 1 as [|st st' _ IH _ Hbody]; [simpl; lia|].
  apply body_advances in Hbody. lia.
Qed.

Lemma body_never_unexpected_end bitStream offsetBits lengthBits st out p :
  0 <= position st < len bitStream ->
  body bitStream offsetBits lengthBits st <> Fail out (UnexpectedEndOfStream p).
Proof.
  intros Hpos. unfold body.
  destruct (Z.ltb_spec (len bitStream) (add (position st) 1)) as [Hlt|_].
  - exfalso. unfold add in Hlt.
    destruct (wrap_congr (position st + 1)) as [k Hk].
    pose proof (wrap_range (position st + 1)).
    unfold min_int, max_int, modulus in *. lia.
  - destruct (slice bitStream _ _) as [flag|]; [|discriminate].
    destruct (flag =? _)%bytes.
    + unfold literalToken.
      destruct (_ <? _); [discriminate|].
      destruct (slice bitStream _ _); [|discriminate].
      destruct (rangeBits _ _ _ _); [|discriminate].
      apply emitLiteral_not_fail.
    + destruct (flag =? _)%bytes; [|discriminate].
      unfold backReferenceToken.
      destruct (_ <? _); [discriminate|].
      destruct (slice bitStream _ _); [|discriminate].
      destruct (rangeBits _ _ _ _); [|discriminate].
      destruct (slice bitStream _ _); [|discriminate].
      destruct (rangeBits _ _ _ _); [|discriminate].
      apply applyBackReference_not_fail.
Qed.

Lemma loop_never_unexpected_end bitStream offsetBits lengthBits fuel :
  forall st out p,
    0 <= position st ->
    loop bitStream offsetBits lengthBits fuel st
    <> Return out (Some (UnexpectedEndOfStream p)).
Proof.
  induction fuel as [|fuel IH]; intros st out p Hpos; simpl.
  - destruct (_ <? _); discriminate.
  - destruct (Z.ltb_spec (position st) (len bitStream)); [|discriminate].
    destruct (body bitStream offsetBits lengthBits st) as [st'|o e|] eqn:Hbody;
      [| |discriminate].
    + apply IH. apply body_advances in Hbody. lia.
    + intros [= -> ->].
      apply body_never_unexpected_end in Hbody; [assumption|lia].
Qed.

(** ** One pass, read forwards *)

Lemma add_small a b : min_int <= a + b <= max_int -> add a b = a + b.
Proof. apply wrap_small. Qed.

Lemma sub_small a b : min_int <= a - b <= max_int -> sub a b = a - b.
Proof. apply wrap_small. Qed.

Lemma fieldAt_tail (sq : bytes) c :
  fieldAt (sq ++ [c]) 1 (len sq) = tl (sq ++ [c]).
Proof.
  unfold fieldAt, len. rewrite Nat2Z.id. change (Z.to_nat 1) with 1%nat.
  destruct sq as [|x sq]; [reflexivity|].
  cbn [app skipn tl]. apply firstn_all2. rewrite length_app. simpl. lia.
Qed.

Section Forwards.

Variable bitStream : bytes.
Variables offsetBits lengthBits : Z.
Hypothesis bitStream_fits : len bitStream <= max_int.

(** Line 47-48: the flag is the byte under the cursor. *)
Lemma body_flag out sb pos :
  0 <= pos < len bitStream ->
  body bitStream offsetBits lengthBits (mkState out sb pos)
  = if (fieldAt bitStream pos 1 =? ["0"%char])%bytes
    then literalToken bitStream offsetBits out sb (pos + 1)
    else if (fieldAt bitStream pos 1 =? ["1"%char])%bytes
         then backReferenceToken bitStream offsetBits lengthBits out sb (pos + 1)
         else Next (mkState out sb (pos + 1)).
Proof.
  intros Hpos. unfold body. cbn [output searchBuffer position].
  rewrite add_small by (unfold min_int, max_int in *; lia).
  destruct (Z.ltb_spec (len bitStream) (pos + 1)); [lia|].
  rewrite slice_ok by lia.
  replace (pos + 1 - pos) with 1 by lia. reflexivity.
Qed.

Lemma literalToken_incomplete out sb pos :
  0 <= pos -> pos + 8 <= max_int -> len bitStream < pos + 8 ->
  literalToken bitStream offsetBits out sb pos = Fail out (IncompleteLiteral pos).
Proof.
  intros H0 H1 H2. unfold literalToken.
  rewrite add_small by (unfold min_int, max_int in *; lia).
  destruct (Z.ltb_spec (len bitStream) (pos + 8)); [reflexivity|lia].
Qed.

Lemma literalToken_complete out sb pos :
  0 <= pos -> pos + 8 <= len bitStream ->
  literalToken bitStream offsetBits out sb pos
  = emitLiteral offsetBits (bigEndian (fieldAt bitStream pos 8)) out sb (pos + 8).
Proof.
  intros H0 H1. unfold literalToken.
  rewrite add_small by (unfold min_int, max_int in *; lia).
  destruct (Z.ltb_spec (len bitStream) (pos + 8)); [lia|].
  rewrite slice_ok by lia.
  replace (pos + 8 - pos) with 8 by lia.
  rewrite rangeBits_literal by (apply len_fieldAt; lia).
  reflexivity.
Qed.

Lemma backReferenceToken_incomplete out sb pos :
  0 <= pos -> 0 <= offsetBits -> 0 <= lengthBits ->
  pos + offsetBits + lengthBits <= max_int ->
  len bitStream < pos + offsetBits + lengthBits ->
  backReferenceToken bitStream offsetBits lengthBits out sb pos
  = Fail out (IncompleteBackReference pos).
Proof.
  intros H0 H1 H2 H3 H4. unfold backReferenceToken.
  pose proof (len_nonneg bitStream).
  assert (E1 : add pos offsetBits = pos + offsetBits)
    by (apply add_small; unfold min_int, max_int in *; lia).
  assert (E2 : add (pos + offsetBits) lengthBits = pos + offsetBits + lengthBits)
    by (apply add_small; unfold min_int, max_int in *; lia).
  rewrite !E1, !E2.
  destruct (Z.ltb_spec (len bitStream) (pos + offsetBits + lengthBits));
    [reflexivity|lia].
Qed.

Lemma backReferenceToken_complete out sb pos :
  0 <= pos -> 0 <= offsetBits -> 0 <= lengthBits ->
  pos + offsetBits + lengthBits <= len bitStream ->
  backReferenceToken bitStream offsetBits lengthBits out sb pos
  = match rangeBits (sub offsetBits 1) 0 0 (fieldAt bitStream pos offsetBits) with
    | Some offset =>
        match rangeBits (sub lengthBits 1) 0 0
                        (fieldAt bitStream (pos + offsetBits) lengthBits) with
        | Some length =>
            applyBackReference offsetBits offset length out sb
                               (pos + offsetBits + lengthBits)
        | None => Crash
        end
    | None => Crash
    end.
Proof.
  intros H0 H1 H2 H3. unfold backReferenceToken.
  pose proof (len_nonneg bitStream).
  assert (E1 : add pos offsetBits = pos + offsetBits)
    by (apply add_small; unfold min_int, max_int in *; lia).
  assert (E2 : add (pos + offsetBits) lengthBits = pos + offsetBits + lengthBits)
    by (apply add_small; unfold min_int, max_int in *; lia).
  rewrite !E1, !E2.
  destruct (Z.ltb_spec (len bitStream) (pos + offsetBits + lengthBits)); [lia|].
  rewrite !slice_ok by lia.
  replace (pos + offsetBits - pos) with offsetBits by lia.
  replace (pos + offsetBits + lengthBits - (pos + offsetBits)) with lengthBits by lia.
  reflexivity.
Qed.

End Forwards.

(** Lines 68-77 for a printable code: the byte goes to the output and to
    the buffer, and the buffer loses its first byte when it outgrows the
    window. *)
Lemma emitLiteral_printable offsetBits charCode out sb pos :
  0 <= offsetBits <= 62 -> 32 <= charCode <= 126 ->
  emitLiteral offsetBits charCode out sb pos
  = Next (mkState (out ++ [byte_of_int charCode])
                  (if 2 ^ offsetBits <? len sb + 1
                   then tl (sb ++ [byte_of_int charCode])
                   else sb ++ [byte_of_int charCode])
                  pos).
Proof.
  intros Hob Hc. unfold emitLiteral.
  destruct (Z.leb_spec 32 charCode); [|lia].
  destruct (Z.leb_spec charCode 126); [|lia]. simpl.
  assert (Hp : printable (byte_of_int charCode)).
  { unfold printable. rewrite code_byte_of_int; lia. }
  rewrite (string_of_byte_printable _ Hp), shl1_small, len_snoc by assumption.
  pose proof (len_nonneg sb).
  destruct (Z.ltb_spec (2 ^ offsetBits) (len sb + 1)); [|reflexivity].
  rewrite slice_ok by (rewrite ?len_snoc; lia).
  replace (len sb + 1 - 1) with (len sb) by lia.
  rewrite fieldAt_tail. reflexivity.
Qed.

(** The same for any shift count that does not panic: the byte is written
    to the output, whatever the trim leaves of the buffer. *)
Lemma emitLiteral_output offsetBits charCode out sb pos :
  0 <= offsetBits -> 32 <= charCode <= 126 ->
  exists sb',
    emitLiteral offsetBits charCode out sb pos
    = Next (mkState (out ++ [byte_of_int charCode]) sb' pos).
Proof.
  intros Hob Hc. unfold emitLiteral.
  destruct (Z.leb_spec 32 charCode); [|lia].
  destruct (Z.leb_spec charCode 126); [|lia]. simpl.
  assert (Hp : printable (byte_of_int charCode)).
  { unfold printable. rewrite code_byte_of_int; lia. }
  rewrite (string_of_byte_printable _ Hp), len_snoc.
  assert (Hw : exists w, shl1 offsetBits = Some w).
  { unfold shl1. destruct (Z.ltb_spec offsetBits 0); [lia|].
    destruct (64 <=? offsetBits); eauto. }
  destruct Hw as [w ->]. pose proof (len_nonneg sb).
  destruct (w <? len sb + 1); [|eauto].
  rewrite slice_ok by (rewrite ?len_snoc; lia). eauto.
Qed.

Lemma emitLiteral_filtered offsetBits charCode out sb pos :
  ~ 32 <= charCode <= 126 ->
  emitLiteral offsetBits charCode out sb pos = Next (mkState out sb pos).
Proof.
  intros Hc. unfold emitLiteral.
  destruct (Z.leb_spec 32 charCode); [|reflexivity].
  destruct (Z.leb_spec charCode 126); [lia|reflexivity].
Qed.

(** ** Literal-only streams *)

Lemma literalStream_pass bitStream offsetBits lengthBits pre c post out sb :
  bitStream = pre ++ ("0"%char :: charBits c) ++ post ->
  len bitStream <= max_int -> 0 <= offsetBits -> printable c ->
  exists sb',
    body bitStream offsetBits lengthBits (mkState out sb (len pre))
    = Next (mkState (out ++ [c]) sb' (len pre + 9)).
Proof.
  intros Hbs Hfit Hob Hc.
  pose proof (len_nonneg pre). pose proof (len_nonneg post).
  assert (Hlen : len bitStream = len pre + 9 + len post).
  { rewrite Hbs, !len_app, len_cons, len_charBits. lia. }
  assert (Hflag : fieldAt bitStream (len pre) 1 = ["0"%char]).
  { rewrite Hbs.
    change (("0"%char :: charBits c) ++ post)
      with (["0"%char] ++ (charBits c ++ post)).
    apply (fieldAt_app_here pre ["0"%char]). }
  assert (Hbits : fieldAt bitStream (len pre + 1) 8 = charBits c).
  { rewrite Hbs.
    change (pre ++ ("0"%char :: charBits c) ++ post)
      with (pre ++ ["0"%char] ++ charBits c ++ post).
    rewrite app_assoc, <- (len_snoc pre "0"%char), <- (len_charBits c).
    apply fieldAt_app_here. }
  rewrite body_flag, Hflag by lia.
  destruct (eqb_bytes_spec ["0"%char] ["0"%char]) as [_|Hne]; [|congruence].
  rewrite literalToken_complete, Hbits, bigEndian_charBits by lia.
  destruct (emitLiteral_output offsetBits (code c) out sb (len pre + 1 + 8) Hob Hc)
    as [sb' Hemit].
  exists sb'. rewrite Hemit, byte_of_int_code. do 2 f_equal. lia.
Qed.

Lemma literalStream_loop offsetBits lengthBits text :
  forall pre out sb fuel,
    len (pre ++ literalStream text) <= max_int -> 0 <= offsetBits ->
    Forall printable text -> (List.length text <= fuel)%nat ->
    loop (pre ++ literalStream text) offsetBits lengthBits fuel
         (mkState out sb (len pre))
    = Return (out ++ text) None.
Proof.
  induction text as [|c text IH]; intros pre out sb fuel Hfit Hob Hp Hfuel.
  - simpl literalStream. rewrite !app_nil_r.
    destruct fuel; simpl;
      (destruct (Z.ltb_spec (len pre) (len pre)); [lia|reflexivity]).
  - destruct fuel as [|fuel]; [simpl in Hfuel; lia|].
    inversion Hp as [|? ? Hc Hp']; subst.
    cbn [literalStream flat_map] in *. fold (literalStream text) in *.
    destruct (literalStream_pass _ offsetBits lengthBits pre c (literalStream text)
                out sb eq_refl Hfit Hob Hc) as [sb' Hbody].
    cbn [loop position]. rewrite Hbody.
    destruct (Z.ltb_spec (len pre) (len (pre ++ ("0"%char :: charBits c) ++ literalStream text)))
      as [_|Hge].
    + specialize (IH (pre ++ "0"%char :: charBits c) (out ++ [c]) sb' fuel).
      rewrite <- app_assoc in IH.
      replace (len (pre ++ "0"%char :: charBits c)) with (len pre + 9) in IH
        by (rewrite len_app, len_cons, len_charBits; lia).
      rewrite IH; try assumption.
      * rewrite <- app_assoc. reflexivity.
      * simpl in Hfuel. lia.
    + rewrite !len_app, len_cons, len_charBits in Hge.
      pose proof (len_nonneg (literalStream text)). lia.
Qed.

Lemma length_literalStream text :
  List.length (literalStream text) = (9 * List.length text)%nat.
Proof.
  induction text as [|c text IH]; [reflexivity|].
  cbn [literalStream flat_map]. fold (literalStream text).
  rewrite length_app, IH. cbn [List.length charBits map]. lia.
Qed.

(** ** The flag under the cursor *)

Lemma flag_at bitStream pos c :
  0 <= pos -> nth_error bitStream (Z.to_nat pos) = Some c ->
  (fieldAt bitStream pos 1 =? ["0"%char])%bytes = Ascii.eqb c "0"
  /\ (fieldAt bitStream pos 1 =? ["1"%char])%bytes = Ascii.eqb c "1".
Proof.
  intros Hpos Hc. rewrite (fieldAt_one _ _ _ Hpos Hc).
  split.
  - destruct (eqb_bytes_spec [c] ["0"%char]) as [[= ->]|Hne]; [reflexivity|].
    destruct (Ascii.eqb_spec c "0"); congruence.
  - destruct (eqb_bytes_spec [c] ["1"%char]) as [[= ->]|Hne]; [reflexivity|].
    destruct (Ascii.eqb_spec c "1"); congruence.
Qed.

(** ** The copy of a back-reference *)

Lemma copyLoop_stops n startPos i out sb :
  len sb <= add startPos i -> copyLoop n startPos i out sb = Some (out, sb).
Proof.
  intros H. destruct n; [reflexivity|]. cbn [copyLoop].
  destruct (Z.leb_spec (len sb) (add startPos i)); [reflexivity|lia].
Qed.

(** While the source index stays inside the buffer, which it does when the
    copy starts inside it, the loop runs all its [n] iterations: byte [j] of
    the copy is the byte at source index [startPos + i + j] of the buffer
    as it has grown by then. *)
Lemma copyLoop_overlap n : forall startPos i out sb,
  0 <= startPos + i < len sb -> startPos + i + Z.of_nat n <= max_int ->
  Forall printable sb ->
  exists copied,
    copyLoop n startPos i out sb = Some (out ++ copied, sb ++ copied)
    /\ List.length copied = n
    /\ forall j, (j < n)%nat ->
         nth_error copied j
         = nth_error (sb ++ copied) (Z.to_nat (startPos + i) + j).
Proof.
  induction n as [|n IH]; intros startPos i out sb Hsrc Hmax Hsb.
  - exists []. rewrite !app_nil_r.
    split; [reflexivity|]. split; [reflexivity|]. intros j Hj. lia.
  - cbn [copyLoop].
    rewrite add_small by (unfold min_int, max_int in *; lia).
    destruct (Z.leb_spec (len sb) (startPos + i)); [lia|].
    destruct (index_ok sb (startPos + i) Hsrc) as (c & -> & Hc).
    assert (Hp : printable c).
    { rewrite Forall_forall in Hsb. apply Hsb. eapply nth_error_In. eassumption. }
    rewrite (string_of_byte_printable c Hp).
    destruct (IH startPos (i + 1) (out ++ [c]) (sb ++ [c])) as (cp & Hcopy & Hlen & Hnth).
    + rewrite len_snoc. lia.
    + lia.
    + apply Forall_app. auto.
    + exists (c :: cp). rewrite Hcopy, <- !app_assoc. cbn [app List.length].
      split; [reflexivity|]. split; [congruence|].
      intros [|j] Hj.
      * rewrite Nat.add_0_r, nth_error_app1; [symmetry; exact Hc|].
        unfold len in Hsrc. lia.
      * cbn [nth_error]. rewrite Hnth by lia. rewrite <- app_assoc. cbn [app].
        f_equal. lia.
Qed.

Lemma fieldAt_suffix (sq : bytes) lo :
  0 <= lo <= len sq -> fieldAt sq lo (len sq - lo) = skipn (Z.to_nat lo) sq.
Proof.
  intros H. unfold fieldAt. apply firstn_all2.
  rewrite length_skipn. unfold len in *. lia.
Qed.

(** Lines 110-123 for a valid back-reference. *)
Lemma applyBackReference_valid offsetBits offset length out sb pos :
  0 <= offsetBits <= 62 -> Forall printable sb ->
  0 < offset <= len sb -> 0 < length -> len sb + length <= max_int ->
  exists copied,
    copyLoop (Z.to_nat length) (sub (len sb) offset) 0 out sb
    = Some (out ++ copied, sb ++ copied)
    /\ len copied = length
    /\ (forall j, (j < List.length copied)%nat ->
         nth_error copied j
         = nth_error (sb ++ copied) (Z.to_nat (len sb - offset) + j))
    /\ applyBackReference offsetBits offset length out sb pos
       = Next (mkState (out ++ copied)
                       (if 2 ^ offsetBits <? len sb + length
                        then skipn (Z.to_nat (len sb + length - 2 ^ offsetBits))
                                   (sb ++ copied)
                        else sb ++ copied)
                       pos).
Proof.
  intros Hob Hsb Hoffset Hlength Hmax.
  pose proof (len_nonneg sb).
  assert (Hstart : sub (len sb) offset = len sb - offset)
    by (apply sub_small; unfold min_int, max_int in *; lia).
  destruct (copyLoop_overlap (Z.to_nat length) (len sb - offset) 0 out sb)
    as (copied & Hcopy & Hlen & Hnth); [lia|lia|assumption|].
  exists copied.
  assert (Hlen' : len copied = length) by (unfold len; lia).
  rewrite Hstart. split; [exact Hcopy|]. split; [exact Hlen'|]. split.
  - intros j Hj. rewrite Hnth by lia. do 2 f_equal. lia.
  - unfold applyBackReference.
    destruct (Z.ltb_spec (len sb) offset); [lia|].
    destruct (Z.eqb_spec length 0); [lia|]. cbn [orb].
    rewrite Hstart, Hcopy, shl1_small, len_app, Hlen' by assumption.
    pose proof (pow2_le_62 offsetBits Hob).
    destruct (Z.ltb_spec (2 ^ offsetBits) (len sb + length)); [|reflexivity].
    rewrite sub_small by (unfold min_int, max_int in *; lia).
    rewrite slice_ok by (rewrite ?len_app; lia).
    rewrite <- Hlen', <- len_app, fieldAt_suffix by (rewrite len_app; lia).
    rewrite len_app, Hlen'. reflexivity.
Qed.

(** ** A pass does not panic *)

Section Safety.

Variable bitStream : bytes.
Variables offsetBits lengthBits : Z.
Hypothesis offsetBits_small : 0 <= offsetBits <= 62.
Hypothesis lengthBits_small : 0 <= lengthBits <= 62.
Hypothesis cursor_fits :
  len bitStream + Z.max 8 (offsetBits + lengthBits) <= max_int.

Local Abbreviation body := (body bitStream offsetBits lengthBits).
Local Abbreviation loop := (loop bitStream offsetBits lengthBits).
Local Abbreviation reached := (reached bitStream offsetBits lengthBits).

Lemma emitLiteral_safe charCode out sb pos :
  emitLiteral offsetBits charCode out sb pos <> Crash.
Proof.
  destruct (Z.le_gt_cases 32 charCode);
    [destruct (Z.le_gt_cases charCode 126)|].
  - rewrite emitLiteral_printable by lia. discriminate.
  - rewrite emitLiteral_filtered by lia. discriminate.
  - rewrite emitLiteral_filtered by lia. discriminate.
Qed.

Lemma applyBackReference_safe offset length out sb pos :
  0 <= offset -> 0 <= length -> len sb + length <= max_int ->
  Forall printable sb ->
  applyBackReference offsetBits offset length out sb pos <> Crash.
Proof.
  intros Hoffset Hlength Hmax Hsb. pose proof (len_nonneg sb).
  destruct (Z.eq_dec offset 0) as [->|];
    [|destruct (Z.lt_ge_cases (len sb) offset);
      [|destruct (Z.eq_dec length 0) as [->|]]].
  - unfold applyBackReference.
    destruct (_ || _); [discriminate|].
    rewrite sub_small by (unfold min_int, max_int in *; lia).
    rewrite copyLoop_stops
      by (rewrite add_small; unfold min_int, max_int in *; lia).
    rewrite shl1_small by assumption.
    pose proof (pow2_le_62 offsetBits offsetBits_small).
    destruct (Z.ltb_spec (2 ^ offsetBits) (len sb)); [|discriminate].
    rewrite sub_small by (unfold min_int, max_int in *; lia).
    rewrite slice_ok by lia. discriminate.
  - unfold applyBackReference.
    destruct (Z.ltb_spec (len sb) offset); [discriminate|lia].
  - unfold applyBackReference.
    rewrite Z.eqb_refl, orb_true_r. discriminate.
  - destruct (applyBackReference_valid offsetBits offset length out sb pos)
      as (copied & _ & _ & _ & ->); try assumption; try lia.
    discriminate.
Qed.

Lemma body_safe st :
  clean st -> len (searchBuffer st) <= 2 ^ offsetBits ->
  0 <= position st < len bitStream ->
  body st <> Crash.
Proof.
  destruct st as [out sb pos]. cbn [searchBuffer position].
  intros [_ Hsb] Hwin Hpos. cbn [searchBuffer] in Hsb.
  assert (Hfit : len bitStream <= max_int) by lia.
  rewrite body_flag by assumption.
  destruct (_ =? _)%bytes; [|destruct (_ =? _)%bytes; [|discriminate]].
  - destruct (Z.lt_ge_cases (len bitStream) (pos + 1 + 8)).
    + rewrite literalToken_incomplete by lia. discriminate.
    + rewrite literalToken_complete by lia. apply emitLiteral_safe.
  - destruct (Z.lt_ge_cases (len bitStream) (pos + 1 + offsetBits + lengthBits)).
    + rewrite backReferenceToken_incomplete by lia. discriminate.
    + rewrite backReferenceToken_complete by lia.
      rewrite !rangeBits_bigEndian by (try apply len_fieldAt; lia).
      pose proof (bigEndian_range (fieldAt bitStream (pos + 1) offsetBits)).
      pose proof (bigEndian_range
                    (fieldAt bitStream (pos + 1 + offsetBits) lengthBits)) as Hl.
      rewrite len_fieldAt in Hl by lia.
      pose proof (pow2_le_62 offsetBits offsetBits_small).
      pose proof (pow2_le_62 lengthBits lengthBits_small).
      apply applyBackReference_safe; try assumption;
        unfold max_int; lia.
Qed.

Lemma loop_safe fuel : forall st,
  reached st -> len bitStream - position st <= Z.of_nat fuel ->
  exists out err, loop fuel st = Return out err.
Proof.
  induction fuel as [|fuel IH]; intros st Hr Hfuel; simpl.
  - destruct (Z.ltb_spec (position st) (len bitStream)); [lia|eauto].
  - destruct (Z.ltb_spec (position st) (len bitStream)); [|eauto].
    destruct (body st) as [st'|o e|] eqn:Hbody.
    + apply IH; [econstructor; eassumption|].
      apply body_advances in Hbody. lia.
    + eauto.
    + exfalso. revert Hbody. apply body_safe.
      * apply (reached_clean _ _ _ _ Hr).
      * pose proof (reached_bounded _ _ _ _ (proj1 offsetBits_small) Hr) as Hb.
        pose proof (window_le offsetBits (proj1 offsetBits_small)).
        unfold bounded in Hb. lia.
      * pose proof (reached_position _ _ _ _ Hr). lia.
Qed.

End Safety.

(** * The claims of the specification *)

(** ** C1: the end of the stream at a token boundary *)

(** C1, as stated, fails: the empty bitstream decodes to the empty output
    with a nil error, not to the error "unexpected end of stream at position
    0". *)
Lemma C1_empty_stream_succeeds :
  decodeLZ77 [] 9 3 = Return [] None
  /\ decodeLZ77 [] 9 3 <> Return [] (Some (UnexpectedEndOfStream 0)).
Proof. split; [reflexivity|discriminate]. Qed.

(** C1, amended: when the cursor has no room for one more flag bit at the
    head of the loop (position >= length, so for the empty bitstream), the
    scan stops and the call returns the output produced so far with a nil
    error; the error "unexpected end of stream" is returned by no call. *)
Theorem C1_end_of_stream_is_success bitStream offsetBits lengthBits :
  (forall st,
      reached bitStream offsetBits lengthBits st ->
      len bitStream <= position st ->
      decodeLZ77 bitStream offsetBits lengthBits = Return (output st) None)
  /\ (forall out p,
         decodeLZ77 bitStream offsetBits lengthBits
         <> Return out (Some (UnexpectedEndOfStream p))).
Proof.
  split.
  - intros st Hr Hend. rewrite (decodeLZ77_from_reached _ _ _ _ Hr).
    destruct (Z.to_nat _); simpl;
      (destruct (Z.ltb_spec (position st) (len bitStream)); [lia|reflexivity]).
  - intros out p. apply loop_never_unexpected_end. simpl. lia.
Qed.

Lemma C1_end_of_stream_is_success_witness :
  decodeLZ77 (str "001000001") 9 3 = Return (str "A") None.
Proof.
  apply (proj1 (C1_end_of_stream_is_success (str "001000001") 9 3)
               (mkState (str "A") (str "A") 9)).
  - apply (reached_next _ _ _ initial);
      [apply reached_initial|vm_compute; reflexivity|vm_compute; reflexivity].
  - vm_compute. discriminate.
Defined.

(** ** C2: the window bound *)

(** C2, as stated, fails inside a token: after the literal 'A', the
    back-reference (offset 1, length 3) read with [offsetBits = 1] grows the
    buffer to 4 bytes in the copy loop, twice the window of [2^1] bytes,
    before line 121 trims it. *)
Lemma C2_buffer_exceeds_window_during_copy :
  let bitStream := str "0010000011111" in
  let st := mkState (str "A") (str "A") 9 in
  reached bitStream 1 2 st
  /\ backReferenceToken bitStream 1 2 (output st) (searchBuffer st) 10
     = applyBackReference 1 1 3 (output st) (searchBuffer st) 13
  /\ copyLoop (Z.to_nat 3) (sub (len (searchBuffer st)) 1) 0
              (output st) (searchBuffer st)
     = Some (str "AAAA", str "AAAA")
  /\ 2 ^ 1 < len (str "AAAA")
  /\ body bitStream 1 2 st = Next (mkState (str "AAAA") (str "AA") 13).
Proof.
  cbv zeta. split; [|split; [|split; [|split]]]; try (vm_compute; reflexivity).
  apply (reached_next _ _ _ initial);
    [apply reached_initial|vm_compute; reflexivity|vm_compute; reflexivity].
Qed.

(** C2, amended: at the head of every pass of the loop, that is at every
    token boundary, after the trim of the token before, the search buffer
    holds at most [2^offsetBits] bytes. *)
Theorem C2_window_bound_at_token_boundaries bitStream offsetBits lengthBits st :
  0 <= offsetBits ->
  reached bitStream offsetBits lengthBits st ->
  len (searchBuffer st) <= 2 ^ offsetBits.
Proof.
  intros Hob Hr.
  pose proof (reached_bounded bitStream offsetBits lengthBits st Hob Hr) as Hb.
  pose proof (window_le offsetBits Hob). unfold bounded in Hb. lia.
Qed.

Lemma C2_window_bound_at_token_boundaries_witness :
  len (searchBuffer (mkState (str "AAAA") (str "AA") 13)) <= 2 ^ 1.
Proof.
  apply (C2_window_bound_at_token_boundaries
           (str "0010000011111") 1 2 (mkState (str "AAAA") (str "AA") 13)).
  - lia.
  - apply (reached_next _ _ _ (mkState (str "A") (str "A") 9));
      [apply (reached_next _ _ _ initial);
       [apply reached_initial|vm_compute; reflexivity|vm_compute; reflexivity]
      |vm_compute; reflexivity|vm_compute; reflexivity].
Defined.

(** ** C3: round trip of an all-literal stream *)

(** C3: the stream that encodes a printable text as literal tokens, a flag
    ['0'] and the 8 bits of each character, decodes to the text with a nil
    error, for every non-negative [offsetBits] and [lengthBits]. The
    hypothesis on the length says that the stream is a Go string. *)
Theorem C3_literal_round_trip text offsetBits lengthBits :
  Forall printable text -> 0 <= offsetBits -> 0 <= lengthBits ->
  len (literalStream text) <= max_int ->
  decodeLZ77 (literalStream text) offsetBits lengthBits = Return text None.
Proof.
  intros Hp Hob _ Hfit. unfold decodeLZ77, initial.
  apply (literalStream_loop offsetBits lengthBits text [] [] []); try assumption.
  rewrite length_literalStream. lia.
Qed.

Lemma C3_literal_round_trip_witness :
  decodeLZ77 (literalStream (str "the rain")) 9 3 = Return (str "the rain") None.
Proof.
  apply C3_literal_round_trip; [|lia|lia|vm_compute; discriminate].
  repeat constructor; vm_compute; discriminate.
Defined.

(** ** C4: back-references that copy nothing *)

(** C4: a back-reference token whose parsed offset is 0, whose parsed length
    is 0 or whose parsed offset exceeds the length of the search buffer
    writes nothing to the output or the search buffer and raises nothing;
    the scan goes on behind the [offsetBits + lengthBits] bits of the token.
    The parsed fields are the results of the loops of lines 89-93 and
    99-103 (by [rangeBits_bigEndian] the big-endian values of the fields),
    and the buffer is within the window, as it is at every token
    boundary. *)
Theorem C4_invalid_back_reference_is_skipped
    bitStream offsetBits lengthBits out sb pos offset length :
  len bitStream <= max_int -> 0 <= pos ->
  0 <= offsetBits <= 62 -> 0 <= lengthBits ->
  pos + 1 + offsetBits + lengthBits <= len bitStream ->
  nth_error bitStream (Z.to_nat pos) = Some "1"%char ->
  rangeBits (sub offsetBits 1) 0 0 (fieldAt bitStream (pos + 1) offsetBits)
  = Some offset ->
  rangeBits (sub lengthBits 1) 0 0
            (fieldAt bitStream (pos + 1 + offsetBits) lengthBits)
  = Some length ->
  len sb <= 2 ^ offsetBits ->
  offset = 0 \/ length = 0 \/ len sb < offset ->
  body bitStream offsetBits lengthBits (mkState out sb pos)
  = Next (mkState out sb (pos + 1 + offsetBits + lengthBits)).
Proof.
  intros Hfit Hpos Hob Hlb Hlen Hflag Hoffset Hlength Hwin Hinvalid.
  rewrite body_flag by lia.
  destruct (flag_at bitStream pos "1"%char) as [-> ->]; [lia|assumption|].
  cbn [Ascii.eqb Bool.eqb].
  rewrite backReferenceToken_complete, Hoffset, Hlength by lia.
  unfold applyBackReference.
  destruct (Z.ltb_spec (len sb) offset); [reflexivity|].
  destruct (Z.eqb_spec length 0); [reflexivity|]. cbn [orb].
  assert (offset = 0) as -> by lia.
  pose proof (len_nonneg sb). pose proof (pow2_le_62 offsetBits Hob).
  rewrite sub_small by (unfold min_int, max_int; lia).
  rewrite copyLoop_stops
    by (rewrite add_small; unfold min_int, max_int; lia).
  rewrite shl1_small by assumption.
  destruct (Z.ltb_spec (2 ^ offsetBits) (len sb)); [lia|reflexivity].
Qed.

Lemma C4_invalid_back_reference_is_skipped_witness :
  body (str "0010000011101010") 3 3 (mkState (str "A") (str "A") 9)
  = Next (mkState (str "A") (str "A") (9 + 1 + 3 + 3))
  /\ body (str "0010000011000010") 3 3 (mkState (str "A") (str "A") 9)
     = Next (mkState (str "A") (str "A") (9 + 1 + 3 + 3)).
Proof.
  split.
  - apply (C4_invalid_back_reference_is_skipped
             (str "0010000011101010") 3 3 (str "A") (str "A") 9 5 2);
      try (vm_compute; (discriminate || reflexivity)).
    + lia.
    + right. right. vm_compute. reflexivity.
  - apply (C4_invalid_back_reference_is_skipped
             (str "0010000011000010") 3 3 (str "A") (str "A") 9 0 2);
      try (vm_compute; (discriminate || reflexivity)).
    + lia.
    + left. reflexivity.
Defined.

(** ** C5: a token cut short by the end of the stream *)

(** C5: at the head of a pass, after a ['0'] flag with fewer than 8 bits
    left the call returns "incomplete literal", after a ['1'] flag with
    fewer than [offsetBits + lengthBits] bits left it returns "incomplete
    back-reference"; both carry the cursor, which stands behind the flag,
    both come with the output written so far, and both end the scan at once.
    The bounds by [max_int] say that the cursor arithmetic does not
    overflow. *)
Theorem C5_incomplete_token_errors bitStream offsetBits lengthBits st :
  len bitStream <= max_int ->
  reached bitStream offsetBits lengthBits st ->
  position st < len bitStream ->
  (nth_error bitStream (Z.to_nat (position st)) = Some "0"%char ->
   position st + 1 + 8 <= max_int -> len bitStream < position st + 1 + 8 ->
   decodeLZ77 bitStream offsetBits lengthBits
   = Return (output st) (Some (IncompleteLiteral (position st + 1))))
  /\ (nth_error bitStream (Z.to_nat (position st)) = Some "1"%char ->
      0 <= offsetBits -> 0 <= lengthBits ->
      position st + 1 + offsetBits + lengthBits <= max_int ->
      len bitStream < position st + 1 + offsetBits + lengthBits ->
      decodeLZ77 bitStream offsetBits lengthBits
      = Return (output st) (Some (IncompleteBackReference (position st + 1)))).
Proof.
  intros Hfit Hr Hlt.
  pose proof (reached_position _ _ _ _ Hr) as Hpos.
  rewrite (decodeLZ77_from_reached _ _ _ _ Hr).
  destruct (Z.to_nat (len bitStream - position st)) as [|fuel] eqn:Hfuel; [lia|].
  destruct st as [out sb pos]. cbn [output position] in *.
  assert (Hloop : loop bitStream offsetBits lengthBits (S fuel) (mkState out sb pos)
                  = match body bitStream offsetBits lengthBits (mkState out sb pos) with
                    | Next st' => loop bitStream offsetBits lengthBits fuel st'
                    | Fail o e => Return o (Some e)
                    | Crash => Panic
                    end).
  { cbn [loop position].
    destruct (Z.ltb_spec pos (len bitStream)); [reflexivity|lia]. }
  rewrite Hloop, body_flag by (assumption || lia). split.
  - intros Hflag Hmax Hshort.
    destruct (flag_at bitStream pos "0"%char) as [-> _]; [lia|assumption|].
    cbn [Ascii.eqb Bool.eqb].
    rewrite literalToken_incomplete by lia. reflexivity.
  - intros Hflag Hob Hlb Hmax Hshort.
    destruct (flag_at bitStream pos "1"%char) as [-> ->]; [lia|assumption|].
    cbn [Ascii.eqb Bool.eqb].
    rewrite backReferenceToken_incomplete by lia. reflexivity.
Qed.

Lemma C5_incomplete_token_errors_witness :
  decodeLZ77 (str "00100000100100") 9 3
  = Return (str "A") (Some (IncompleteLiteral (9 + 1)))
  /\ decodeLZ77 (str "00100000110000000") 9 3
     = Return (str "A") (Some (IncompleteBackReference (9 + 1))).
Proof.
  split.
  - apply (C5_incomplete_token_errors (str "00100000100100") 9 3
             (mkState (str "A") (str "A") 9));
      try (vm_compute; (discriminate || reflexivity)).
    apply (reached_next _ _ _ initial);
      [apply reached_initial|vm_compute; reflexivity|vm_compute; reflexivity].
  - apply (C5_incomplete_token_errors (str "00100000110000000") 9 3
             (mkState (str "A") (str "A") 9));
      try (vm_compute; (discriminate || reflexivity)).
    apply (reached_next _ _ _ initial);
      [apply reached_initial|vm_compute; reflexivity|vm_compute; reflexivity].
Defined.

(** ** C6: the copy of a valid back-reference *)

(** C6: for a valid back-reference token (0 < offset <= buffer length,
    length > 0) the copy starts at [startPos = len(searchBuffer) - offset],
    taken before the token appends anything; the pass appends [length]
    bytes, the same to the output and to the search buffer, and byte [j] of
    them is the byte at index [startPos + j] of the buffer as grown by the
    bytes before it, so the copy may overlap itself; the trim to the window
    follows. In the copy loop a source index at or behind the current end of
    the buffer stops the copy with what it has, without an error. The
    parsed fields are the results of the loops of lines 89-93 and 99-103; the
    buffer holds printable bytes, as it does at every token boundary, and
    its length with the copy stays an [int]. *)
Theorem C6_back_reference_copy
    bitStream offsetBits lengthBits out sb pos offset length :
  len bitStream <= max_int -> 0 <= pos ->
  0 <= offsetBits <= 62 -> 0 <= lengthBits ->
  pos + 1 + offsetBits + lengthBits <= len bitStream ->
  nth_error bitStream (Z.to_nat pos) = Some "1"%char ->
  rangeBits (sub offsetBits 1) 0 0 (fieldAt bitStream (pos + 1) offsetBits)
  = Some offset ->
  rangeBits (sub lengthBits 1) 0 0
            (fieldAt bitStream (pos + 1 + offsetBits) lengthBits)
  = Some length ->
  Forall printable sb ->
  0 < offset <= len sb -> 0 < length -> len sb + length <= max_int ->
  exists copied,
    copyLoop (Z.to_nat length) (sub (len sb) offset) 0 out sb
    = Some (out ++ copied, sb ++ copied)
    /\ len copied = length
    /\ (forall j, (j < List.length copied)%nat ->
         nth_error copied j
         = nth_error (sb ++ copied) (Z.to_nat (len sb - offset) + j))
    /\ body bitStream offsetBits lengthBits (mkState out sb pos)
       = Next (mkState (out ++ copied)
                       (if 2 ^ offsetBits <? len sb + length
                        then skipn (Z.to_nat (len sb + length - 2 ^ offsetBits))
                                   (sb ++ copied)
                        else sb ++ copied)
                       (pos + 1 + offsetBits + lengthBits))
    /\ (forall n startPos i out' sb',
          len sb' <= add startPos i ->
          copyLoop n startPos i out' sb' = Some (out', sb')).
Proof.
  intros Hfit Hpos Hob Hlb Hlen Hflag Hoffset Hlength Hsb Hvalid Hpositive Hmax.
  destruct (applyBackReference_valid offsetBits offset length out sb
              (pos + 1 + offsetBits + lengthBits))
    as (copied & Hcopy & Hcount & Hsource & Happly); try assumption.
  exists copied. repeat (split; [assumption|]). split.
  - rewrite body_flag by lia.
    destruct (flag_at bitStream pos "1"%char) as [-> ->]; [lia|assumption|].
    cbn [Ascii.eqb Bool.eqb].
    rewrite backReferenceToken_complete, Hoffset, Hlength by lia.
    exact Happly.
  - intros n startPos i out' sb'. apply copyLoop_stops.
Qed.

Lemma C6_back_reference_copy_witness :
  exists copied,
    copyLoop (Z.to_nat 5) (sub (len (str "xab")) 2) 0 (str "xab") (str "xab")
    = Some (str "xab" ++ copied, str "xab" ++ copied)
    /\ len copied = 5
    /\ (forall j, (j < List.length copied)%nat ->
         nth_error copied j
         = nth_error (str "xab" ++ copied) (Z.to_nat (len (str "xab") - 2) + j))
    /\ body (str "1010101") 3 3 (mkState (str "xab") (str "xab") 0)
       = Next (mkState (str "xab" ++ copied)
                       (if 2 ^ 3 <? len (str "xab") + 5
                        then skipn (Z.to_nat (len (str "xab") + 5 - 2 ^ 3))
                                   (str "xab" ++ copied)
                        else str "xab" ++ copied)
                       (0 + 1 + 3 + 3))
    /\ (forall n startPos i out' sb',
          len sb' <= add startPos i ->
          copyLoop n startPos i out' sb' = Some (out', sb')).
Proof.
  apply (C6_back_reference_copy (str "1010101") 3 3 (str "xab") (str "xab") 0 2 5);
    try (vm_compute; (discriminate || reflexivity)).
  - lia.
  - repeat constructor; vm_compute; discriminate.
  - vm_compute. split; [reflexivity|discriminate].
Defined.

(** ** C7: the printable filter *)

(** C7: a literal token whose 8 bits, read as a big-endian number, lie
    outside [32, 126] leaves output and search buffer as they are and the
    scan goes on after the token; a value inside [32, 126] is appended as a
    byte to the output and to the search buffer (which then drops its first
    byte if it has outgrown the window). *)
Theorem C7_printable_filter bitStream offsetBits lengthBits out sb pos :
  len bitStream <= max_int -> 0 <= pos -> pos + 9 <= len bitStream ->
  nth_error bitStream (Z.to_nat pos) = Some "0"%char ->
  let charCode := bigEndian (fieldAt bitStream (pos + 1) 8) in
  (~ 32 <= charCode <= 126 ->
   body bitStream offsetBits lengthBits (mkState out sb pos)
   = Next (mkState out sb (pos + 9)))
  /\ (32 <= charCode <= 126 -> 0 <= offsetBits <= 62 ->
      body bitStream offsetBits lengthBits (mkState out sb pos)
      = Next (mkState (out ++ [byte_of_int charCode])
                      (if 2 ^ offsetBits <? len sb + 1
                       then tl (sb ++ [byte_of_int charCode])
                       else sb ++ [byte_of_int charCode])
                      (pos + 9))).
Proof.
  intros Hfit Hpos Hlen Hflag charCode.
  assert (Hbody : body bitStream offsetBits lengthBits (mkState out sb pos)
                  = emitLiteral offsetBits charCode out sb (pos + 9)).
  { rewrite body_flag by lia.
    destruct (flag_at bitStream pos "0"%char) as [-> _]; [lia|assumption|].
    cbn [Ascii.eqb Bool.eqb]. rewrite literalToken_complete by lia.
    replace (pos + 1 + 8) with (pos + 9) by lia. reflexivity. }
  rewrite Hbody. split.
  - apply emitLiteral_filtered.
  - intros Hc Hob. apply emitLiteral_printable; assumption.
Qed.

Lemma C7_printable_filter_witness :
  body (str "000000111") 9 3 (mkState [] [] 0) = Next (mkState [] [] (0 + 9))
  /\ body (str "001000010") 0 3 (mkState (str "A") (str "A") 0)
     = Next (mkState (str "AB") (str "B") (0 + 9)).
Proof.
  split.
  - apply (C7_printable_filter (str "000000111") 9 3 [] [] 0);
      try (vm_compute; (discriminate || reflexivity)).
    vm_compute. intros [H _]. apply H. reflexivity.
  - apply (C7_printable_filter (str "001000010") 0 3 (str "A") (str "A") 0);
      try (vm_compute; (discriminate || reflexivity)).
    + vm_compute. split; discriminate.
    + lia.
Defined.

(** ** C8: a flag that is neither ['0'] nor ['1'] *)

(** C8: a byte other than ['0'] and ['1'] in flag position is consumed
    alone: neither branch runs, output and search buffer stay as they are,
    nothing fails, and the scan goes on at the next position. *)
Theorem C8_other_flag_is_skipped bitStream offsetBits lengthBits out sb pos c :
  len bitStream <= max_int -> 0 <= pos < len bitStream ->
  nth_error bitStream (Z.to_nat pos) = Some c ->
  c <> "0"%char -> c <> "1"%char ->
  body bitStream offsetBits lengthBits (mkState out sb pos)
  = Next (mkState out sb (pos + 1)).
Proof.
  intros Hfit Hpos Hc H0 H1.
  rewrite body_flag by assumption.
  destruct (flag_at bitStream pos c) as [-> ->]; [lia|assumption|].
  destruct (Ascii.eqb_spec c "0"); [contradiction|].
  destruct (Ascii.eqb_spec c "1"); [contradiction|].
  reflexivity.
Qed.

Lemma C8_other_flag_is_skipped_witness :
  body (str "0010000012001000010") 9 3 (mkState (str "A") (str "A") 9)
  = Next (mkState (str "A") (str "A") (9 + 1)).
Proof.
  apply (C8_other_flag_is_skipped _ 9 3 (str "A") (str "A") 9 "2"%char).
  - vm_compute. discriminate.
  - vm_compute. split; [discriminate|reflexivity].
  - reflexivity.
  - discriminate.
  - discriminate.
Defined.

(** ** C9: no panic *)

(** C9, as stated, fails for a [lengthBits] so large that the sum of line
    81 overflows: on the stream "1" with [offsetBits = 0] (so [1 <<
    offsetBits = 1]) and [lengthBits = max_int], [position + offsetBits +
    lengthBits] wraps to [min_int], the test of line 81 passes, and the
    slice of line 96 is out of bounds. *)
Lemma C9_huge_lengthBits_panics :
  0 <= 0 /\ 0 <= max_int /\ shl1 0 = Some 1
  /\ decodeLZ77 (str "1") 0 max_int = Panic.
Proof.
  split; [lia|]. split; [unfold max_int; lia|].
  split; vm_compute; reflexivity.
Qed.

(** C9, amended: for [offsetBits] and [lengthBits] from 0 to 62, so that
    neither [1 << offsetBits] nor the length of a copy overflows, and a
    bitstream short enough for the cursor sums [position + 8] and [position
    + offsetBits + lengthBits] not to overflow, a call never panics: it
    returns an output with a nil error or with one of the errors. *)
Theorem C9_no_panic bitStream offsetBits lengthBits :
  0 <= offsetBits <= 62 -> 0 <= lengthBits <= 62 ->
  len bitStream + Z.max 8 (offsetBits + lengthBits) <= max_int ->
  exists out err, decodeLZ77 bitStream offsetBits lengthBits = Return out err.
Proof.
  intros Hob Hlb Hfit. unfold decodeLZ77.
  apply loop_safe; try assumption.
  - apply reached_initial.
  - cbn [position initial]. unfold len. lia.
Qed.

Lemma C9_no_panic_witness :
  exists out err, decodeLZ77 (str "0010000011111") 1 2 = Return out err.
Proof.
  apply (C9_no_panic (str "0010000011111") 1 2).
  - lia.
  - lia.
  - vm_compute. discriminate.
Defined.

(** ** C10: the output is printable *)

(** C10: every byte of the output that a call returns, with a nil error or
    with an error, is printable ASCII. *)
Theorem C10_output_is_printable bitStream offsetBits lengthBits out err :
  decodeLZ77 bitStream offsetBits lengthBits = Return out err ->
  Forall printable out.
Proof.
  unfold decodeLZ77. intros H.
  apply loop_returns_reached in H; [|apply reached_initial].
  destruct H as (st & Hr & ->).
  apply reached_clean in Hr. apply Hr.
Qed.

Lemma C10_output_is_printable_witness :
  Forall printable (str "AAAA").
Proof.
  apply (C10_output_is_printable (str "0010000011111") 1 2 (str "AAAA") None).
  vm_compute. reflexivity.
Defined.

(** * Further properties of the decoder *)

(** ** What a pass reads *)

Lemma fieldAt_firstn (sq : bytes) p lo w :
  0 <= lo -> 0 <= w -> lo + w <= Z.of_nat p ->
  fieldAt (firstn p sq) lo w = fieldAt sq lo w.
Proof.
  intros Hlo Hw Hp. unfold fieldAt.
  rewrite skipn_firstn_comm, firstn_firstn. f_equal. lia.
Qed.

(** Two streams agree on their first [p] bytes. *)
Lemma fieldAt_agree (sq sq' : bytes) p lo w :
  firstn p sq' = firstn p sq ->
  0 <= lo -> 0 <= w -> lo + w <= Z.of_nat p ->
  fieldAt sq' lo w = fieldAt sq lo w.
Proof.
  intros Hagree Hlo Hw Hp.
  rewrite <- (fieldAt_firstn sq' p), <- (fieldAt_firstn sq p) by assumption.
  rewrite Hagree. reflexivity.
Qed.

Lemma agree_len (sq sq' : bytes) p :
  firstn p sq' = firstn p sq -> Z.of_nat p <= len sq -> Z.of_nat p <= len sq'.
Proof.
  intros Hagree Hp. apply (f_equal (@List.length ascii)) in Hagree.
  rewrite !length_firstn in Hagree. unfold len in *. lia.
Qed.

Lemma agree_less (sq sq' : bytes) p q :
  firstn p sq' = firstn p sq -> (q <= p)%nat -> firstn q sq' = firstn q sq.
Proof.
  intros Hagree Hq.
  replace q with (Nat.min q p) by lia.
  rewrite <- !firstn_firstn, Hagree. reflexivity.
Qed.

Lemma slice_agree (sq sq' : bytes) p lo hi r :
  firstn p sq' = firstn p sq -> hi <= Z.of_nat p ->
  slice sq lo hi = Some r -> slice sq' lo hi = Some r.
Proof.
  intros Hagree Hhi Hs. apply slice_inv in Hs. destruct Hs as (H0 & H1 & H2 & ->).
  rewrite slice_ok; try lia.
  - f_equal. apply (fieldAt_agree sq sq' p); try assumption; lia.
  - pose proof (agree_len sq sq' (Z.to_nat hi)
                  (agree_less sq sq' p (Z.to_nat hi) Hagree ltac:(lia)) ltac:(lia)).
    lia.
Qed.

Lemma literalToken_inv bitStream offsetBits out sb pos st' :
  literalToken bitStream offsetBits out sb pos = Next st' ->
  exists literalBits charCode,
    slice bitStream pos (add pos 8) = Some literalBits
    /\ rangeBits 7 0 0 literalBits = Some charCode
    /\ emitLiteral offsetBits charCode out sb (add pos 8) = Next st'.
Proof.
  unfold literalToken.
  destruct (len bitStream <? add pos 8); [discriminate|].
  destruct (slice bitStream pos (add pos 8)) as [literalBits|]; [|discriminate].
  destruct (rangeBits 7 0 0 literalBits) as [charCode|] eqn:Hcode; [|discriminate].
  intros H. exists literalBits, charCode. repeat split; assumption.
Qed.

Lemma backReferenceToken_inv bitStream offsetBits lengthBits out sb pos st' :
  backReferenceToken bitStream offsetBits lengthBits out sb pos = Next st' ->
  exists offsetBitStr offset lengthBitStr length,
    slice bitStream pos (add pos offsetBits) = Some offsetBitStr
    /\ rangeBits (sub offsetBits 1) 0 0 offsetBitStr = Some offset
    /\ slice bitStream (add pos offsetBits) (add (add pos offsetBits) lengthBits)
       = Some lengthBitStr
    /\ rangeBits (sub lengthBits 1) 0 0 lengthBitStr = Some length
    /\ applyBackReference offsetBits offset length out sb
                          (add (add pos offsetBits) lengthBits) = Next st'.
Proof.
  unfold backReferenceToken.
  destruct (len bitStream <? add (add pos offsetBits) lengthBits); [discriminate|].
  destruct (slice bitStream pos (add pos offsetBits)) as [offsetBitStr|];
    [|discriminate].
  destruct (rangeBits (sub offsetBits 1) 0 0 offsetBitStr) as [offset|] eqn:Hoffset;
    [|discriminate].
  destruct (slice bitStream (add pos offsetBits)
                  (add (add pos offsetBits) lengthBits)) as [lengthBitStr|];
    [|discriminate].
  destruct (rangeBits (sub lengthBits 1) 0 0 lengthBitStr) as [length|] eqn:Hlength;
    [|discriminate].
  intros H. exists offsetBitStr, offset, lengthBitStr, length.
  repeat split; assumption.
Qed.

Section Passes.

Variable bitStream : bytes.
Variables offsetBits lengthBits : Z.

Local Abbreviation body := (body bitStream offsetBits lengthBits).
Local Abbreviation reached := (reached bitStream offsetBits lengthBits).

(** The three ways through a pass that goes on to the next. *)
Lemma body_inv st st' :
  body st = Next st' ->
  exists flag,
    slice bitStream (position st) (add (position st) 1) = Some flag
    /\ ((flag = ["0"%char]
         /\ literalToken bitStream offsetBits (output st) (searchBuffer st)
                         (add (position st) 1) = Next st')
        \/ (flag = ["1"%char]
            /\ backReferenceToken bitStream offsetBits lengthBits
                                  (output st) (searchBuffer st)
                                  (add (position st) 1) = Next st')
        \/ (flag <> ["0"%char] /\ flag <> ["1"%char]
            /\ st' = mkState (output st) (searchBuffer st) (add (position st) 1))).
Proof.
  unfold body.
  destruct (len bitStream <? add (position st) 1); [discriminate|].
  destruct (slice bitStream (position st) (add (position st) 1)) as [flag|];
    [|discriminate].
  destruct (eqb_bytes_spec flag ["0"%char]) as [Heq0|Hne0].
  - intros H. exists flag. split; [reflexivity|]. left. split; assumption.
  - destruct (eqb_bytes_spec flag ["1"%char]) as [Heq1|Hne1].
    + intros H. exists flag. split; [reflexivity|]. right. left. split; assumption.
    + intros [= <-]. exists flag. split; [reflexivity|]. right. right.
      repeat split; assumption.
Qed.

(** A pass that goes on leaves the cursor inside the stream. *)
Lemma body_position_le st st' :
  body st = Next st' -> position st' <= len bitStream.
Proof.
  intros H. apply body_inv in H. destruct H as (flag & Hflag & H).
  apply slice_inv in Hflag.
  destruct H as [(_ & H)|[(_ & H)|(_ & _ & ->)]].
  - apply literalToken_inv in H. destruct H as (bits & c & Hs & _ & H).
    apply emitLiteral_position in H. apply slice_inv in Hs. lia.
  - apply backReferenceToken_inv in H.
    destruct H as (obs & o & lbs & l & _ & _ & Hs & _ & H).
    apply applyBackReference_position in H. apply slice_inv in Hs. lia.
  - cbn [position]. lia.
Qed.

Lemma reached_position_le st : reached st -> position st <= len bitStream.
Proof.
  induction 1 as [|st st' _ _ _ Hbody].
  - cbn [position initial]. apply len_nonneg.
  - eapply body_position_le. eassumption.
Qed.

(** A pass appends to the output. *)
Lemma body_output_extends st st' :
  clean st -> body st = Next st' ->
  exists written, output st' = output st ++ written.
Proof.
  intros [_ Hsb] H. apply body_inv in H. destruct H as (flag & _ & H).
  destruct H as [(_ & H)|[(_ & H)|(_ & _ & ->)]].
  - apply literalToken_inv in H. destruct H as (bits & c & _ & _ & H).
    apply emitLiteral_inv in H.
    destruct H as [[_ ->]|(_ & w & _ & -> & _)]; [exists []|eauto].
    cbn [output]. rewrite app_nil_r. reflexivity.
  - apply backReferenceToken_inv in H.
    destruct H as (obs & o & lbs & l & _ & _ & _ & _ & H).
    apply applyBackReference_inv in H; [|assumption].
    destruct H as [[_ ->]|(_ & _ & cp & w & _ & _ & _ & _ & -> & _)];
      [exists []|eauto].
    cbn [output]. rewrite app_nil_r. reflexivity.
  - exists []. cbn [output]. rewrite app_nil_r. reflexivity.
Qed.

End Passes.

(** A pass reads the stream only up to where it leaves the cursor: on any
    stream with the same bytes up to there it does the same. *)
Lemma body_local bitStream bitStream' offsetBits lengthBits st st' :
  body bitStream offsetBits lengthBits st = Next st' ->
  firstn (Z.to_nat (position st')) bitStream'
  = firstn (Z.to_nat (position st')) bitStream ->
  body bitStream' offsetBits lengthBits st = Next st'.
Proof.
  intros Hbody Hagree.
  pose proof (body_position_le _ _ _ _ _ Hbody) as Hle.
  pose proof (body_advances _ _ _ _ _ Hbody) as Hadv.
  apply body_inv in Hbody. destruct Hbody as (flag & Hflag & H).
  pose proof (slice_inv _ _ _ _ Hflag) as (Hp0 & Hp1 & _ & _).
  assert (Hlen' : position st' <= len bitStream').
  { pose proof (agree_len _ _ _ Hagree ltac:(lia)). lia. }
  assert (Hslice : forall lo hi r, slice bitStream lo hi = Some r ->
            hi <= position st' -> slice bitStream' lo hi = Some r).
  { intros lo hi r Hs Hhi. apply (slice_agree _ _ _ _ _ _ Hagree); [lia|exact Hs]. }
  unfold body.
  destruct H as [(-> & H)|[(-> & H)|(Hne0 & Hne1 & ->)]].
  - apply literalToken_inv in H. destruct H as (bits & c & Hs & Hc & H).
    pose proof (emitLiteral_position _ _ _ _ _ _ H) as Hpos.
    pose proof (slice_inv _ _ _ _ Hs) as (_ & Hq & _ & _).
    destruct (Z.ltb_spec (len bitStream') (add (position st) 1)); [lia|].
    rewrite (Hslice _ _ _ Hflag) by lia.
    destruct (eqb_bytes_spec ["0"%char] ["0"%char]); [|congruence].
    unfold literalToken.
    destruct (Z.ltb_spec (len bitStream') (add (add (position st) 1) 8)); [lia|].
    rewrite (Hslice _ _ _ Hs) by lia. rewrite Hc. exact H.
  - apply backReferenceToken_inv in H.
    destruct H as (obs & o & lbs & l & Hs1 & Ho & Hs2 & Hl & H).
    pose proof (applyBackReference_position _ _ _ _ _ _ _ H) as Hpos.
    pose proof (slice_inv _ _ _ _ Hs1) as (_ & Hq1 & _ & _).
    pose proof (slice_inv _ _ _ _ Hs2) as (_ & Hq2 & _ & _).
    destruct (Z.ltb_spec (len bitStream') (add (position st) 1)); [lia|].
    rewrite (Hslice _ _ _ Hflag) by lia.
    destruct (eqb_bytes_spec ["1"%char] ["0"%char]); [discriminate|].
    destruct (eqb_bytes_spec ["1"%char] ["1"%char]); [|congruence].
    unfold backReferenceToken.
    destruct (Z.ltb_spec (len bitStream')
                (add (add (add (position st) 1) offsetBits) lengthBits)); [lia|].
    rewrite (Hslice _ _ _ Hs1) by lia. rewrite Ho. rewrite (Hslice _ _ _ Hs2) by lia. rewrite Hl.
    exact H.
  - cbn [position] in *.
    destruct (Z.ltb_spec (len bitStream') (add (position st) 1)); [lia|].
    rewrite (Hslice _ _ _ Hflag) by lia.
    destruct (eqb_bytes_spec flag ["0"%char]); [contradiction|].
    destruct (eqb_bytes_spec flag ["1"%char]); [contradiction|].
    reflexivity.
Qed.

Lemma reached_local bitStream bitStream' offsetBits lengthBits st :
  reached bitStream offsetBits lengthBits st ->
  firstn (Z.to_nat (position st)) bitStream'
  = firstn (Z.to_nat (position st)) bitStream ->
  reached bitStream' offsetBits lengthBits st.
Proof.
  induction 1 as [|st st' Hr IH Hpos Hbody]; intros Hagree.
  - apply reached_initial.
  - pose proof (body_advances _ _ _ _ _ Hbody) as Hadv.
    pose proof (body_position_le _ _ _ _ _ Hbody) as Hle.
    pose proof (reached_position _ _ _ _ Hr) as H0.
    apply (reached_next _ _ _ st).
    + apply IH. apply (agree_less _ _ _ _ Hagree). lia.
    + pose proof (agree_len _ _ _ Hagree ltac:(lia)). lia.
    + apply (body_local bitStream); assumption.
Qed.

(** A call that stands at the end of the stream returns. *)
Lemma decodeLZ77_at_end bitStream offsetBits lengthBits st :
  reached bitStream offsetBits lengthBits st -> len bitStream <= position st ->
  decodeLZ77 bitStream offsetBits lengthBits = Return (output st) None.
Proof.
  intros Hr Hend. rewrite (decodeLZ77_from_reached _ _ _ _ Hr).
  destruct (Z.to_nat _); simpl;
    (destruct (Z.ltb_spec (position st) (len bitStream)); [lia|reflexivity]).
Qed.

(** What a call returns, it returns from a state that it reached: at the
    end of the stream, or in a pass that fails. *)
Lemma loop_returns_inv bitStream offsetBits lengthBits fuel : forall st out err,
  reached bitStream offsetBits lengthBits st ->
  loop bitStream offsetBits lengthBits fuel st = Return out err ->
  exists st',
    reached bitStream offsetBits lengthBits st' /\ out = output st'
    /\ match err with
       | None => len bitStream <= position st'
       | Some e => position st' < len bitStream
                   /\ body bitStream offsetBits lengthBits st' = Fail out e
       end.
Proof.
  induction fuel as [|fuel IH]; intros st out err Hr; simpl.
  - destruct (Z.ltb_spec (position st) (len bitStream)); [discriminate|].
    intros [= <- <-]. eauto.
  - destruct (Z.ltb_spec (position st) (len bitStream));
      [|intros [= <- <-]; eauto].
    destruct (body bitStream offsetBits lengthBits st) as [st'|o e|] eqn:Hbody;
      [| |discriminate].
    + apply IH. econstructor; eassumption.
    + intros [= <- <-]. exists st.
      pose proof (body_fail_output _ _ _ _ _ _ Hbody). subst o. auto.
Qed.

Lemma loop_output_extends bitStream offsetBits lengthBits fuel : forall st out err,
  clean st ->
  loop bitStream offsetBits lengthBits fuel st = Return out err ->
  exists written, out = output st ++ written.
Proof.
  induction fuel as [|fuel IH]; intros st out err Hclean; simpl.
  - destruct (_ <? _); [discriminate|].
    intros [= <- _]. exists []. rewrite app_nil_r. reflexivity.
  - destruct (_ <? _);
      [|intros [= <- _]; exists []; rewrite app_nil_r; reflexivity].
    destruct (body bitStream offsetBits lengthBits st) as [st'|o e|] eqn:Hbody;
      [| |discriminate].
    + intros H. apply IH in H; [|eapply body_clean; eassumption].
      destruct H as [w2 ->].
      destruct (body_output_extends _ _ _ _ _ Hclean Hbody) as [w1 ->].
      exists (w1 ++ w2). rewrite app_assoc. reflexivity.
    + intros [= <- _]. apply body_fail_output in Hbody. subst o.
      exists []. rewrite app_nil_r. reflexivity.
Qed.

Lemma firstn_prefix (sq : bytes) p q :
  (q <= p)%nat -> firstn q (firstn p sq) = firstn q sq.
Proof. intros H. rewrite firstn_firstn. f_equal. lia. Qed.

Lemma firstn_extension (sq more : bytes) q :
  (q <= List.length sq)%nat -> firstn q (sq ++ more) = firstn q sq.
Proof.
  intros H. rewrite firstn_app.
  replace (q - List.length sq)%nat with 0%nat by lia.
  cbn [firstn]. apply app_nil_r.
Qed.

(** ** The search buffer mirrors the end of the output *)

Lemma shl1_cases offsetBits w :
  0 <= offsetBits -> shl1 offsetBits = Some w ->
  (offsetBits <= 62 /\ w = 2 ^ offsetBits /\ window offsetBits = w /\ 1 <= w)
  \/ (offsetBits = 63 /\ w = min_int /\ window offsetBits = 0)
  \/ (64 <= offsetBits /\ w = 0 /\ window offsetBits = 0).
Proof.
  intros Hob Hw. unfold window.
  destruct (Z.leb_spec offsetBits 62).
  - rewrite shl1_small in Hw by lia. injection Hw as <-.
    pose proof (pow2_le_62 offsetBits ltac:(lia)). left. repeat split; lia.
  - destruct (Z.eq_dec offsetBits 63) as [->|].
    + rewrite shl1_63 in Hw. injection Hw as <-. right. left. auto.
    + rewrite shl1_big in Hw by lia. injection Hw as <-. right. right.
      repeat split; lia.
Qed.

Lemma len_skipn (sq : bytes) n :
  0 <= n <= len sq -> len (skipn (Z.to_nat n) sq) = len sq - n.
Proof. intros H. unfold len in *. rewrite length_skipn. lia. Qed.

Section Mirror.

Variable bitStream : bytes.
Variables offsetBits lengthBits : Z.
Hypothesis offsetBits_nonneg : 0 <= offsetBits.

Lemma emitLiteral_mirrors charCode out sb pos0 pos st' :
  mirrors offsetBits (mkState out sb pos0) ->
  emitLiteral offsetBits charCode out sb pos = Next st' ->
  mirrors offsetBits st'.
Proof.
  intros (dropped & Hout & Hlen) H. cbn [output searchBuffer] in *.
  apply emitLiteral_inv in H.
  destruct H as [[_ ->]|(_ & w & Hw & Ho & _ & Hs)]; [exists dropped; auto|].
  pose proof (len_nonneg sb). pose proof (len_nonneg out).
  assert (Hge : len sb <= len out) by (rewrite Hout, len_app; pose proof (len_nonneg dropped); lia).
  unfold mirrors. rewrite Ho, len_snoc.
  destruct (shl1_cases offsetBits w offsetBits_nonneg Hw)
    as [(_ & _ & HW & H1)|[(_ & -> & HW)|(_ & -> & HW)]];
    rewrite HW in *;
    (destruct Hs as [[Htrim ->]|[Hkeep ->]];
     [rewrite fieldAt_tail; destruct sb as [|x sb0];
      [exists (out ++ [byte_of_int charCode]); cbn [app tl];
       rewrite app_nil_r, len_nil in *; split; [reflexivity|lia]
      |exists (dropped ++ [x]); cbn [app tl];
       rewrite len_snoc, len_cons in *; split;
       [rewrite Hout, <- !app_assoc; reflexivity|lia]]
     |]).
  - exists []. rewrite len_snoc. cbn [app].
    assert (dropped = []) as ->.
    { apply (f_equal len) in Hout. rewrite len_app in Hout.
      destruct dropped; [reflexivity|]. rewrite len_cons in Hout.
      pose proof (len_nonneg dropped). lia. }
    cbn [app] in Hout. split; [congruence|lia].
  - unfold min_int in Hkeep. lia.
  - lia.
Qed.

Lemma applyBackReference_mirrors offset length out sb pos0 pos st' :
  length <= max_int -> Forall printable sb ->
  mirrors offsetBits (mkState out sb pos0) ->
  applyBackReference offsetBits offset length out sb pos = Next st' ->
  mirrors offsetBits st'.
Proof.
  intros Hlength Hsb (dropped & Hout & Hlen) H. cbn [output searchBuffer] in *.
  apply applyBackReference_inv in H; [|assumption].
  destruct H as [[_ ->]|(_ & _ & cp & w & _ & _ & Hcp & Hw & Ho & _ & Hs)];
    [exists dropped; auto|].
  pose proof (len_nonneg sb). pose proof (len_nonneg out).
  pose proof (len_nonneg cp). pose proof (len_nonneg dropped).
  assert (Hge : len out = len dropped + len sb) by (rewrite Hout, len_app; lia).
  unfold mirrors. rewrite Ho, len_app.
  destruct Hs as [(Htrim & Hlo & ->)|[Hkeep ->]].
  - remember (sub (len sb + len cp) w) as lo eqn:Hlodef.
    replace (len sb + len cp - lo) with (len (sb ++ cp) - lo)
      by (rewrite len_app; lia).
    rewrite fieldAt_suffix by (rewrite len_app; lia).
    exists (dropped ++ firstn (Z.to_nat lo) (sb ++ cp)).
    split.
    + rewrite <- app_assoc, firstn_skipn, Hout, app_assoc. reflexivity.
    + rewrite len_skipn, len_app by (rewrite len_app; lia).
      subst lo.
      destruct (shl1_cases offsetBits w offsetBits_nonneg Hw)
        as [(Hob & -> & HW & Hw1)|[(_ & -> & HW)|(_ & -> & HW)]];
        rewrite HW in *.
      * pose proof (pow2_le_62 offsetBits ltac:(lia)).
        unfold sub in *. rewrite wrap_small in * by (unfold min_int, max_int in *; lia).
        lia.
      * exfalso. unfold sub in Hlo.
        destruct (wrap_congr (len sb + len cp - min_int)) as [k Hk].
        pose proof (wrap_range (len sb + len cp - min_int)).
        unfold min_int, max_int, modulus in *. lia.
      * unfold sub in *. rewrite wrap_small in * by (unfold min_int, max_int in *; lia).
        lia.
  - exists dropped. split; [rewrite Hout, app_assoc; reflexivity|].
    rewrite len_app.
    destruct (shl1_cases offsetBits w offsetBits_nonneg Hw)
      as [(Hob & -> & HW & Hw1)|[(_ & -> & HW)|(_ & -> & HW)]];
      rewrite HW in *; unfold min_int in *; lia.
Qed.

Lemma body_mirrors st st' :
  clean st -> mirrors offsetBits st ->
  body bitStream offsetBits lengthBits st = Next st' ->
  mirrors offsetBits st'.
Proof.
  intros [_ Hsb] Hm H. destruct st as [out sb pos]. cbn [searchBuffer] in Hsb.
  apply body_inv in H. destruct H as (flag & _ & H).
  cbn [output searchBuffer position] in H.
  destruct H as [(_ & H)|[(_ & H)|(_ & _ & ->)]].
  - apply literalToken_inv in H. destruct H as (bits & c & _ & _ & H).
    eapply emitLiteral_mirrors; eassumption.
  - apply backReferenceToken_inv in H.
    destruct H as (obs & o & lbs & l & _ & _ & _ & Hl & H).
    apply rangeBits_int in Hl; [|unfold min_int, max_int; lia].
    eapply applyBackReference_mirrors; try eassumption. lia.
  - destruct Hm as (dropped & Hm). exists dropped. exact Hm.
Qed.

Lemma reached_mirrors st :
  reached bitStream offsetBits lengthBits st -> mirrors offsetBits st.
Proof.
  induction 1 as [|st st' Hr IH _ Hbody].
  - exists []. cbn [initial output searchBuffer app]. rewrite len_nil.
    split; [reflexivity|]. unfold window.
    destruct (offsetBits <=? 62); [|reflexivity].
    pose proof (pow2_pos offsetBits offsetBits_nonneg). lia.
  - eapply body_mirrors; try eassumption. eapply reached_clean. eassumption.
Qed.

End Mirror.

(** ** Where an error comes from *)

Lemma add_exact a b bound :
  0 <= a <= max_int -> 0 <= b <= max_int -> 0 <= bound -> bound < add a b ->
  add a b = a + b.
Proof.
  intros Ha Hb Hbound Hlt. unfold add in *.
  destruct (wrap_congr (a + b)) as [k Hk]. pose proof (wrap_range (a + b)).
  unfold min_int, max_int, modulus in *. lia.
Qed.

Lemma add_add_exceeds a b c bound :
  0 <= a <= max_int -> 0 <= b <= max_int -> 0 <= c <= max_int ->
  0 <= bound -> bound < add (add a b) c -> bound < a + b + c.
Proof.
  intros Ha Hb Hc Hbound Hlt.
  pose proof (wrap_range (a + b)) as Hr. fold (add a b) in Hr.
  destruct (wrap_congr (a + b)) as [k Hk]. fold (add a b) in Hk.
  destruct (wrap_congr (add a b + c)) as [k' Hk']. fold (add (add a b) c) in Hk'.
  pose proof (wrap_range (add a b + c)) as Hr'. fold (add (add a b) c) in Hr'.
  unfold min_int, max_int, modulus in *. lia.
Qed.

Lemma nth_error_inside (sq : bytes) pos :
  0 <= pos < len sq -> exists c, nth_error sq (Z.to_nat pos) = Some c.
Proof.
  intros H. destruct (nth_error sq (Z.to_nat pos)) as [c|] eqn:E; [eauto|].
  apply nth_error_None in E. unfold len in H. lia.
Qed.

(** A pass fails only on a flag ['0'] or ['1'], with the error of its
    branch, carrying the cursor behind the flag. *)
Lemma body_fail_inv bitStream offsetBits lengthBits out sb pos o e :
  len bitStream <= max_int -> 0 <= pos < len bitStream ->
  body bitStream offsetBits lengthBits (mkState out sb pos) = Fail o e ->
  (nth_error bitStream (Z.to_nat pos) = Some "0"%char
   /\ e = IncompleteLiteral (pos + 1)
   /\ len bitStream < add (pos + 1) 8)
  \/ (nth_error bitStream (Z.to_nat pos) = Some "1"%char
      /\ e = IncompleteBackReference (pos + 1)
      /\ len bitStream < add (add (pos + 1) offsetBits) lengthBits).
Proof.
  intros Hfit Hpos. rewrite body_flag by assumption.
  destruct (nth_error_inside bitStream pos Hpos) as [c Hc].
  destruct (flag_at bitStream pos c) as [-> ->]; [lia|assumption|].
  destruct (Ascii.eqb_spec c "0") as [->|_];
    [|destruct (Ascii.eqb_spec c "1") as [->|_]; [|discriminate]].
  - unfold literalToken.
    destruct (Z.ltb_spec (len bitStream) (add (pos + 1) 8)).
    + intros [= <- <-]. left. auto.
    + destruct (slice bitStream _ _); [|discriminate].
      destruct (rangeBits _ _ _ _); [|discriminate].
      intros Hfail. apply emitLiteral_not_fail in Hfail. contradiction.
  - unfold backReferenceToken.
    destruct (Z.ltb_spec (len bitStream) (add (add (pos + 1) offsetBits) lengthBits)).
    + intros [= <- <-]. right. auto.
    + destruct (slice bitStream _ _); [|discriminate].
      destruct (rangeBits _ _ _ _); [|discriminate].
      destruct (slice bitStream _ _); [|discriminate].
      destruct (rangeBits _ _ _ _); [|discriminate].
      intros Hfail. apply applyBackReference_not_fail in Hfail. contradiction.
Qed.

(** The state in which a call fails. *)
Lemma decodeLZ77_fails_inv bitStream offsetBits lengthBits out e :
  len bitStream <= max_int ->
  decodeLZ77 bitStream offsetBits lengthBits = Return out (Some e) ->
  exists st,
    reached bitStream offsetBits lengthBits st /\ out = output st
    /\ 0 <= position st < len bitStream
    /\ ((nth_error bitStream (Z.to_nat (position st)) = Some "0"%char
         /\ e = IncompleteLiteral (position st + 1)
         /\ len bitStream < add (position st + 1) 8)
        \/ (nth_error bitStream (Z.to_nat (position st)) = Some "1"%char
            /\ e = IncompleteBackReference (position st + 1)
            /\ len bitStream < add (add (position st + 1) offsetBits) lengthBits)).
Proof.
  intros Hfit H. unfold decodeLZ77 in H.
  apply loop_returns_inv in H; [|apply reached_initial].
  destruct H as (st & Hr & -> & Hlt & Hbody).
  pose proof (reached_position _ _ _ _ Hr) as H0.
  exists st. split; [assumption|]. split; [reflexivity|]. split; [lia|].
  destruct st as [out sb pos]. cbn [output position] in *.
  eapply body_fail_inv; [exact Hfit| |exact Hbody]. lia.
Qed.

(** ** Properties of a whole call *)

(** X1: every pass of the loop that goes on moves the cursor forward and
    leaves it inside the stream, so the loop ends: the [len(bitStream)]
    passes that the model allows are never used up. *)
Theorem X1_every_pass_advances bitStream offsetBits lengthBits :
  (forall st st',
      body bitStream offsetBits lengthBits st = Next st' ->
      position st < position st' <= len bitStream)
  /\ decodeLZ77 bitStream offsetBits lengthBits <> OutOfFuel.
Proof.
  split.
  - intros st st' H. split.
    + eapply body_advances. eassumption.
    + eapply body_position_le. eassumption.
  - apply loop_fuel_enough. cbn [position initial]. unfold len. lia.
Qed.

Lemma X1_every_pass_advances_witness :
  position (mkState (str "A") (str "A") 9)
  < position (mkState (str "AAAA") (str "AA") 13) <= len (str "0010000011111").
Proof.
  apply (proj1 (X1_every_pass_advances (str "0010000011111") 1 2)).
  vm_compute. reflexivity.
Defined.

(** X2: at every token boundary the search buffer is the end of the
    output: the whole output while that is at most [2^offsetBits] bytes
    long, and its last [2^offsetBits] bytes afterwards. *)
Theorem X2_buffer_is_end_of_output bitStream offsetBits lengthBits st :
  0 <= offsetBits <= 62 ->
  reached bitStream offsetBits lengthBits st ->
  exists dropped,
    output st = dropped ++ searchBuffer st
    /\ len (searchBuffer st) = Z.min (len (output st)) (2 ^ offsetBits).
Proof.
  intros Hob Hr.
  destruct (reached_mirrors _ _ _ (proj1 Hob) _ Hr) as (dropped & Hout & Hlen).
  exists dropped. split; [assumption|].
  unfold window in Hlen. destruct (Z.leb_spec offsetBits 62); [assumption|lia].
Qed.

Lemma X2_buffer_is_end_of_output_witness :
  exists dropped,
    output (mkState (str "AAAA") (str "AA") 13)
    = dropped ++ searchBuffer (mkState (str "AAAA") (str "AA") 13)
    /\ len (searchBuffer (mkState (str "AAAA") (str "AA") 13))
       = Z.min (len (output (mkState (str "AAAA") (str "AA") 13))) (2 ^ 1).
Proof.
  apply (X2_buffer_is_end_of_output (str "0010000011111") 1 2).
  - lia.
  - apply (reached_next _ _ _ (mkState (str "A") (str "A") 9));
      [apply (reached_next _ _ _ initial);
       [apply reached_initial|vm_compute; reflexivity|vm_compute; reflexivity]
      |vm_compute; reflexivity|vm_compute; reflexivity].
Defined.

(** X3: the output only grows: what a call returns, with or without an
    error, begins with the output as it was at any token boundary on the
    way. *)
Theorem X3_output_is_append_only bitStream offsetBits lengthBits st out err :
  reached bitStream offsetBits lengthBits st ->
  decodeLZ77 bitStream offsetBits lengthBits = Return out err ->
  exists written, out = output st ++ written.
Proof.
  intros Hr H. rewrite (decodeLZ77_from_reached _ _ _ _ Hr) in H.
  eapply loop_output_extends; [|eassumption].
  eapply reached_clean. eassumption.
Qed.

Lemma X3_output_is_append_only_witness :
  exists written, str "AAAA" = output (mkState (str "A") (str "A") 9) ++ written.
Proof.
  apply (X3_output_is_append_only (str "0010000011111") 1 2
           (mkState (str "A") (str "A") 9) (str "AAAA") None).
  - apply (reached_next _ _ _ initial);
      [apply reached_initial|vm_compute; reflexivity|vm_compute; reflexivity].
  - vm_compute. reflexivity.
Defined.

(** X4: a stream cut at a token boundary decodes, without an error, to
    the output that the whole stream had produced at that boundary. *)
Theorem X4_cut_at_token_boundary bitStream offsetBits lengthBits st :
  reached bitStream offsetBits lengthBits st ->
  decodeLZ77 (firstn (Z.to_nat (position st)) bitStream) offsetBits lengthBits
  = Return (output st) None.
Proof.
  intros Hr.
  pose proof (reached_position _ _ _ _ Hr) as H0.
  pose proof (reached_position_le _ _ _ _ Hr) as Hle.
  apply decodeLZ77_at_end.
  - apply (reached_local bitStream); [assumption|].
    apply firstn_prefix. lia.
  - unfold len in *. rewrite length_firstn. lia.
Qed.

Lemma X4_cut_at_token_boundary_witness :
  decodeLZ77 (firstn (Z.to_nat (position (mkState (str "A") (str "A") 9)))
                     (str "0010000011111")) 1 2
  = Return (output (mkState (str "A") (str "A") 9)) None.
Proof.
  apply (X4_cut_at_token_boundary (str "0010000011111") 1 2
           (mkState (str "A") (str "A") 9)).
  apply (reached_next _ _ _ initial);
    [apply reached_initial|vm_compute; reflexivity|vm_compute; reflexivity].
Defined.

(** X5: the output that comes with an error is the output of the stream
    cut in front of the token that failed, that is one symbol before the
    position that the error carries; decoding that prefix gives the same
    output without an error. *)
Theorem X5_error_output_is_output_of_prefix bitStream offsetBits lengthBits out e :
  len bitStream <= max_int ->
  decodeLZ77 bitStream offsetBits lengthBits = Return out (Some e) ->
  decodeLZ77 (firstn (Z.to_nat (errorPosition e - 1)) bitStream)
             offsetBits lengthBits
  = Return out None.
Proof.
  intros Hfit H.
  destruct (decodeLZ77_fails_inv _ _ _ _ _ Hfit H)
    as (st & Hr & -> & Hpos & [(_ & -> & _)|(_ & -> & _)]);
    cbn [errorPosition];
    replace (position st + 1 - 1) with (position st) by lia;
    (apply decodeLZ77_at_end;
     [apply (reached_local bitStream); [assumption|apply firstn_prefix; lia]
     |unfold len in *; rewrite length_firstn; lia]).
Qed.

Lemma X5_error_output_is_output_of_prefix_witness :
  decodeLZ77 (firstn (Z.to_nat (errorPosition (IncompleteLiteral 10) - 1))
                     (str "00100000100100")) 9 3
  = Return (str "A") None.
Proof.
  apply (X5_error_output_is_output_of_prefix (str "00100000100100") 9 3).
  - vm_compute. discriminate.
  - vm_compute. reflexivity.
Defined.

(** X6: an error is never spurious. "incomplete literal at position p"
    is returned only when the symbol at [p - 1] is the flag ['0'] and fewer
    than 8 symbols follow it; "incomplete back-reference at position p" only
    when the symbol at [p - 1] is the flag ['1'] and fewer than [offsetBits
    + lengthBits] symbols follow it; "unexpected end of stream" never. The
    parameters are non-negative [int]s. *)
Theorem X6_errors_mean_a_cut_token bitStream offsetBits lengthBits out e :
  len bitStream <= max_int ->
  0 <= offsetBits <= max_int -> 0 <= lengthBits <= max_int ->
  decodeLZ77 bitStream offsetBits lengthBits = Return out (Some e) ->
  match e with
  | IncompleteLiteral p =>
      1 <= p <= len bitStream
      /\ nth_error bitStream (Z.to_nat (p - 1)) = Some "0"%char
      /\ len bitStream < p + 8
  | IncompleteBackReference p =>
      1 <= p <= len bitStream
      /\ nth_error bitStream (Z.to_nat (p - 1)) = Some "1"%char
      /\ len bitStream < p + offsetBits + lengthBits
  | UnexpectedEndOfStream _ => False
  end.
Proof.
  intros Hfit Hob Hlb H.
  destruct (decodeLZ77_fails_inv _ _ _ _ _ Hfit H)
    as (st & Hr & -> & Hpos & [(Hflag & -> & Hshort)|(Hflag & -> & Hshort)]);
    replace (position st + 1 - 1) with (position st) by lia;
    (split; [lia|]); (split; [assumption|]).
  - assert (Hexact : add (position st + 1) 8 = position st + 1 + 8).
    { apply (add_exact _ _ (len bitStream)); unfold max_int in *; lia. }
    rewrite Hexact in Hshort. lia.
  - apply (add_add_exceeds (position st + 1) offsetBits lengthBits);
      unfold max_int in *; lia.
Qed.

Lemma X6_errors_mean_a_cut_token_witness :
  1 <= 10 <= len (str "00100000110000000")
  /\ nth_error (str "00100000110000000") (Z.to_nat (10 - 1)) = Some "1"%char
  /\ len (str "00100000110000000") < 10 + 9 + 3.
Proof.
  apply (X6_errors_mean_a_cut_token (str "00100000110000000") 9 3 (str "A")
           (IncompleteBackReference 10));
    try (unfold max_int; lia).
  - vm_compute. discriminate.
  - vm_compute. reflexivity.
Defined.

(** X7: more input only adds output: if a stream decodes to [out], with or
    without an error, then the stream followed by any further symbols
    decodes to an output that begins with [out]. *)
Theorem X7_longer_stream_extends_output
    bitStream more offsetBits lengthBits out err out' err' :
  decodeLZ77 bitStream offsetBits lengthBits = Return out err ->
  decodeLZ77 (bitStream ++ more) offsetBits lengthBits = Return out' err' ->
  exists written, out' = out ++ written.
Proof.
  intros H H'. unfold decodeLZ77 in H.
  apply loop_returns_reached in H; [|apply reached_initial].
  destruct H as (st & Hr & ->).
  pose proof (reached_position _ _ _ _ Hr) as H0.
  pose proof (reached_position_le _ _ _ _ Hr) as Hle.
  assert (Hr' : reached (bitStream ++ more) offsetBits lengthBits st).
  { apply (reached_local bitStream); [assumption|].
    apply firstn_extension. unfold len in Hle. lia. }
  rewrite (decodeLZ77_from_reached _ _ _ _ Hr') in H'.
  eapply loop_output_extends; [|eassumption].
  eapply reached_clean. eassumption.
Qed.

Lemma X7_longer_stream_extends_output_witness :
  exists written, str "AAAA" = str "A" ++ written.
Proof.
  apply (X7_longer_stream_extends_output (str "00100000111") (str "11") 1 2
           (str "A") (Some (IncompleteBackReference 10)) (str "AAAA") None).
  - vm_compute. reflexivity.
  - vm_compute. reflexivity.
Defined.

(** ** Every output byte was a literal *)

Lemma add_exact_le a b :
  0 <= a <= max_int -> 0 < b <= max_int -> a <= add a b -> add a b = a + b.
Proof.
  intros Ha Hb Hle. unfold add in *.
  destruct (wrap_congr (a + b)) as [k Hk]. pose proof (wrap_range (a + b)).
  unfold min_int, max_int, modulus in *. lia.
Qed.

Lemma fieldAt_one_inv (sq : bytes) pos c :
  fieldAt sq pos 1 = [c] -> nth_error sq (Z.to_nat pos) = Some c.
Proof.
  unfold fieldAt. change (Z.to_nat 1) with 1%nat.
  generalize (Z.to_nat pos) as n. intros n. revert sq.
  induction n as [|n IH]; intros [|x sq]; cbn [skipn firstn nth_error];
    try discriminate.
  - intros [= ->]. reflexivity.
  - apply IH.
Qed.

(** The copy loop appends bytes taken from the buffer. *)
Lemma copyLoop_incl n : forall startPos i out sb out' sb',
  Forall printable sb ->
  copyLoop n startPos i out sb = Some (out', sb') ->
  exists copied, out' = out ++ copied /\ sb' = sb ++ copied /\ incl copied sb.
Proof.
  induction n as [|n IH]; intros startPos i out sb out' sb' Hsb; cbn [copyLoop].
  - intros [= <- <-]. exists []. rewrite !app_nil_r.
    repeat split. apply incl_nil_l.
  - destruct (_ <=? _).
    + intros [= <- <-]. exists []. rewrite !app_nil_r.
      repeat split. apply incl_nil_l.
    + destruct (index sb _) as [c|] eqn:Hc; [|discriminate].
      apply index_inv in Hc. destruct Hc as [_ Hc]. apply nth_error_In in Hc.
      assert (Hp : printable c) by (rewrite Forall_forall in Hsb; auto).
      rewrite (string_of_byte_printable c Hp). intros H.
      apply IH in H; [|apply Forall_app; auto].
      destruct H as (cp & -> & -> & Hincl).
      exists (c :: cp). rewrite <- !app_assoc. repeat split.
      intros x [<-|Hx]; [assumption|].
      apply Hincl, in_app_or in Hx. destruct Hx as [Hx|[<-|[]]]; assumption.
Qed.

Section Provenance.

Variable P : ascii -> Prop.
Variable offsetBits : Z.

Lemma emitLiteral_keeps charCode out sb pos st' :
  (32 <= charCode <= 126 -> P (byte_of_int charCode)) ->
  Forall P out -> Forall P sb ->
  emitLiteral offsetBits charCode out sb pos = Next st' ->
  Forall P (output st') /\ Forall P (searchBuffer st').
Proof.
  intros Hnew Hout Hsb H. apply emitLiteral_inv in H.
  destruct H as [[_ ->]|(Hc & w & _ & -> & _ & Hs)]; [auto|].
  assert (Hone : Forall P [byte_of_int charCode]) by (repeat constructor; auto).
  split; [apply Forall_app; auto|].
  destruct Hs as [[_ ->]|[_ ->]].
  - apply Forall_fieldAt, Forall_app; auto.
  - apply Forall_app; auto.
Qed.

Lemma applyBackReference_keeps offset length out sb pos st' :
  Forall printable sb -> Forall P out -> Forall P sb ->
  applyBackReference offsetBits offset length out sb pos = Next st' ->
  Forall P (output st') /\ Forall P (searchBuffer st').
Proof.
  intros Hprint Hout Hsb. unfold applyBackReference.
  destruct (_ || _); [intros [= <-]; auto|].
  destruct (copyLoop _ _ _ _ _) as [[out1 sb1]|] eqn:Hcopy; [|discriminate].
  destruct (copyLoop_incl _ _ _ _ _ _ _ Hprint Hcopy) as (cp & -> & -> & Hincl).
  assert (Hcp : Forall P cp).
  { rewrite Forall_forall in *. auto. }
  destruct (shl1 offsetBits); [|discriminate].
  destruct (_ <? _).
  - destruct (slice _ _ _) as [sb'|] eqn:Hs; [|discriminate].
    apply slice_inv in Hs. destruct Hs as (_ & _ & _ & ->).
    intros [= <-]. cbn [output searchBuffer].
    split; [apply Forall_app; auto|apply Forall_fieldAt, Forall_app; auto].
  - intros [= <-]. cbn [output searchBuffer].
    split; apply Forall_app; auto.
Qed.

End Provenance.

(** A literal token at a token boundary whose 8 bits are the code of [c]. *)
Lemma body_keeps_literals bitStream offsetBits lengthBits st st' :
  len bitStream <= max_int ->
  reached bitStream offsetBits lengthBits st ->
  body bitStream offsetBits lengthBits st = Next st' ->
  forall P : ascii -> Prop,
    (forall c, nth_error bitStream (Z.to_nat (position st)) = Some "0"%char ->
               position st + 9 <= len bitStream ->
               bigEndian (fieldAt bitStream (position st + 1) 8) = code c ->
               P c) ->
    Forall P (output st) -> Forall P (searchBuffer st) ->
    Forall P (output st') /\ Forall P (searchBuffer st').
Proof.
  intros Hfit Hr Hbody P Hnew Hout Hsb.
  pose proof (reached_position _ _ _ _ Hr) as H0.
  pose proof (reached_clean _ _ _ _ Hr) as [_ Hprint].
  pose proof (body_advances _ _ _ _ _ Hbody) as Hadv.
  apply body_inv in Hbody. destruct Hbody as (flag & Hflag & H).
  apply slice_inv in Hflag. destruct Hflag as (_ & Hle1 & Hle2 & Hflag).
  assert (Hone : add (position st) 1 = position st + 1).
  { apply add_exact_le; unfold max_int in *; lia. }
  rewrite Hone in *.
  destruct H as [(-> & H)|[(_ & H)|(_ & _ & ->)]];
    [apply literalToken_inv in H; destruct H as (bits & charCode & Hs & Hc & H)
    |apply backReferenceToken_inv in H;
     destruct H as (obs & o & lbs & l & _ & _ & _ & _ & H)|].
  - apply slice_inv in Hs. destruct Hs as (_ & Hle3 & Hle4 & ->).
    assert (Height : add (position st + 1) 8 = position st + 1 + 8).
    { apply add_exact_le; unfold max_int in *; lia. }
    rewrite Height in *.
    replace (position st + 1 + 8 - (position st + 1)) with 8 in Hc by lia.
    rewrite rangeBits_literal in Hc by (apply len_fieldAt; lia).
    injection Hc as <-.
    replace (position st + 1 - position st) with 1 in Hflag by lia.
    symmetry in Hflag. apply fieldAt_one_inv in Hflag.
    refine (emitLiteral_keeps P offsetBits _ (output st) (searchBuffer st) _ st'
                              _ Hout Hsb H).
    intros Hc. apply Hnew; [assumption|lia|].
    rewrite code_byte_of_int; [reflexivity|lia].
  - exact (applyBackReference_keeps P offsetBits _ _ _ _ _ _ Hprint Hout Hsb H).
  - auto.
Qed.

(** X8: a call never invents a byte: every byte of the output it returns is
    the value of a literal token of the stream, a flag ['0'] at a token
    boundary followed by 8 bits that read, most significant first, as the
    code of the byte. Back-references only repeat such bytes. *)
Theorem X8_output_bytes_are_literals bitStream offsetBits lengthBits out err :
  len bitStream <= max_int ->
  decodeLZ77 bitStream offsetBits lengthBits = Return out err ->
  Forall (fun c =>
            exists st,
              reached bitStream offsetBits lengthBits st
              /\ nth_error bitStream (Z.to_nat (position st)) = Some "0"%char
              /\ position st + 9 <= len bitStream
              /\ bigEndian (fieldAt bitStream (position st + 1) 8) = code c)
         out.
Proof.
  intros Hfit H. unfold decodeLZ77 in H.
  apply loop_returns_reached in H; [|apply reached_initial].
  destruct H as (st & Hr & ->).
  set (P := fun c => exists st0, reached bitStream offsetBits lengthBits st0 /\ _).
  enough (Forall P (output st) /\ Forall P (searchBuffer st)) by tauto.
  induction Hr as [|st st' Hr IH Hpos Hbody].
  - split; constructor.
  - destruct IH as [Hout Hsb].
    apply (body_keeps_literals _ _ _ _ _ Hfit Hr Hbody P); try assumption.
    intros c Hflag Hlen Hcode. exists st. auto.
Qed.

Lemma X8_output_bytes_are_literals_witness :
  Forall (fun c =>
            exists st,
              reached (str "0010000011111") 1 2 st
              /\ nth_error (str "0010000011111") (Z.to_nat (position st))
                 = Some "0"%char
              /\ position st + 9 <= len (str "0010000011111")
              /\ bigEndian (fieldAt (str "0010000011111") (position st + 1) 8)
                 = code c)
         (str "AAAA").
Proof.
  apply (X8_output_bytes_are_literals (str "0010000011111") 1 2 (str "AAAA") None).
  - vm_compute. discriminate.
  - vm_compute. reflexivity.
Defined.

(** * The runes of a string *)

Lemma eqb_one_code b : Ascii.eqb b "1" = (code b =? 49).
Proof. destruct b as [[] [] [] [] [] [] [] []]; reflexivity. Qed.

Lemma continues_high (s : bytes) n :
  continues s n = true -> exists b, nth_error s n = Some b /\ 128 <= code b.
Proof.
  unfold continues. destruct (nth_error s n) as [b|]; [|discriminate].
  intros H. apply andb_true_iff in H. destruct H as [H _].
  apply Z.leb_le in H. eauto.
Qed.

(** A rune read by [decoderune] is no ASCII rune, it takes at least one
    byte, and the bytes it takes after the first are continuation bytes. *)
Lemma decoderune_spec (s : bytes) :
  128 <= fst (decoderune s)
  /\ (1 <= snd (decoderune s))%nat
  /\ forall n, (1 <= n < snd (decoderune s))%nat -> continues s n = true.
Proof.
  assert (Herr : 128 <= runeError) by (unfold runeError; lia).
  unfold decoderune.
  repeat match goal with
         | |- context [if ?c then _ else _] => destruct c eqn:?
         end;
    cbn [fst snd]; (split; [|split; [lia|]]);
    try exact Herr; try (intros n Hn; lia);
    repeat match goal with
           | H : (_ && _) = true |- _ =>
               apply andb_true_iff in H; destruct H
           | H : (_ <? _) = true |- _ => apply Z.ltb_lt in H
           end;
    try lia.
  - intros n Hn. replace n with 1%nat by lia. assumption.
  - intros n Hn. destruct n as [|[|[|n]]]; try lia; assumption.
  - intros n Hn. destruct n as [|[|[|[|n]]]]; try lia; assumption.
Qed.

Lemma continues_tail b (s : bytes) n : continues (b :: s) (S n) = continues s n.
Proof. reflexivity. Qed.

Lemma rangeBitsRunes_rangeFrom top : forall field skip i acc,
  (forall m, (m < skip)%nat -> continues field m = true) ->
  rangeBitsRunes top acc (rangeFrom field skip i) = rangeBits top i acc field.
Proof.
  induction field as [|b rest IH]; intros skip i acc Hskip; [reflexivity|].
  cbn [rangeFrom rangeBits]. rewrite eqb_one_code.
  destruct skip as [|skip].
  - destruct (Z.ltb_spec (code b) 128) as [Hlow|Hhigh].
    + cbn [rangeBitsRunes]. destruct (code b =? 49).
      * destruct (shl1 _); [|reflexivity]. apply IH. intros m Hm. lia.
      * apply IH. intros m Hm. lia.
    + pose proof (decoderune_spec (b :: rest)) as (Hr & Hw & Hcont).
      destruct (decoderune (b :: rest)) as [char width]. cbn [fst snd] in *.
      cbn [rangeBitsRunes].
      destruct (Z.eqb_spec char 49); [lia|].
      destruct (Z.eqb_spec (code b) 49); [lia|].
      apply IH. intros m Hm. rewrite <- (continues_tail b). apply Hcont. lia.
  - destruct (continues_high (b :: rest) 0 (Hskip 0%nat ltac:(lia)))
      as (b' & [= <-] & Hb).
    destruct (Z.eqb_spec (code b) 49); [lia|].
    apply IH. intros m Hm. rewrite <- (continues_tail b). apply Hskip. lia.
Qed.

(** X9: the bit loops of lines 61-65, 89-93 and 99-103 range over the
    runes of the field, not over its bytes. For every field, also one with
    multi-byte or invalid UTF-8 in it, they compute what the byte-wise
    reading computes: exactly the bytes ['1'] count, each with the weight of
    its byte index, and no other rune shifts a weight. *)
Theorem X9_bit_loops_read_bytes top field :
  rangeBitsRunes top 0 (rangeString field) = rangeBits top 0 0 field.
Proof.
  apply rangeBitsRunes_rangeFrom. intros n Hn. lia.
Qed.

(** * [generateBitStream] *)

Lemma length_rangeFrom : forall (s : bytes) skip i,
  (List.length (rangeFrom s skip i) <= List.length s)%nat.
Proof.
  induction s as [|b rest IH]; intros skip i; [reflexivity|].
  cbn [rangeFrom List.length]. destruct skip as [|skip].
  - destruct (if code b <? 128 then _ else _) as [char width].
    cbn [List.length]. specialize (IH (Nat.pred width) (i + 1)). lia.
  - specialize (IH skip (i + 1)). lia.
Qed.

Lemma rangeFrom_ascii : forall (s : bytes) i,
  Forall (fun b => code b < 128) s -> map snd (rangeFrom s 0 i) = map code s.
Proof.
  induction s as [|b rest IH]; intros i Hs; [reflexivity|].
  inversion Hs as [|? ? Hb Hrest]; subst.
  cbn [rangeFrom]. destruct (Z.ltb_spec (code b) 128); [|lia].
  cbn [map snd Nat.pred]. f_equal. apply IH. assumption.
Qed.

Lemma runeBits_symbols char :
  Forall (fun b => b = "0"%char \/ b = "1"%char) (runeBits char).
Proof.
  unfold runeBits. apply Forall_map, Forall_forall. intros i _.
  destruct (_ =? _); auto.
Qed.

Lemma len_flat_map_bits {A} (f : A -> bytes) (l : list A) :
  (forall x, len (f x) = 8) -> len (flat_map f l) = 8 * Z.of_nat (List.length l).
Proof.
  intros Hf. induction l as [|x l IH]; [reflexivity|].
  cbn [flat_map List.length]. rewrite len_app, Hf, IH. lia.
Qed.

(** X10: whatever the bytes of the text, [generateBitStream] writes only
    the symbols ['0'] and ['1'], 8 for every rune of the text, so at most 8
    for every byte. *)
Theorem X10_generated_stream_is_binary text :
  Forall (fun b => b = "0"%char \/ b = "1"%char) (generateBitStream text)
  /\ len (generateBitStream text)
     = 8 * Z.of_nat (List.length (rangeString text))
  /\ len (generateBitStream text) <= 8 * len text.
Proof.
  assert (Hlen : len (generateBitStream text)
                 = 8 * Z.of_nat (List.length (rangeString text))).
  { apply len_flat_map_bits. reflexivity. }
  split; [|split; [exact Hlen|]].
  - unfold generateBitStream. apply Forall_flat_map, Forall_forall.
    intros p _. apply runeBits_symbols.
  - rewrite Hlen. pose proof (length_rangeFrom text 0 0).
    unfold rangeString, len. lia.
Qed.

Lemma generateBitStream_ascii text :
  Forall (fun b => code b < 128) text ->
  generateBitStream text = flat_map charBits text.
Proof.
  intros Hascii. unfold generateBitStream, rangeString.
  transitivity (flat_map runeBits (map snd (rangeFrom text 0 0))).
  - generalize (rangeFrom text 0 0) as l. intros l.
    induction l as [|p l IH]; [reflexivity|].
    cbn [flat_map map]. rewrite IH. reflexivity.
  - rewrite rangeFrom_ascii by assumption.
    clear. induction text as [|c text IH]; [reflexivity|].
    cbn [flat_map map]. rewrite IH. reflexivity.
Qed.

(** X11: for an ASCII text [generateBitStream] writes the 8 symbols of
    each byte in turn, and the loop with which the decoder reads a literal
    (lines 60-65) reads the 8 symbols of each character back as the code of
    that character. *)
Theorem X11_generated_bits_read_back text pre c post :
  Forall (fun b => code b < 128) text ->
  text = pre ++ c :: post ->
  generateBitStream text = flat_map charBits text
  /\ rangeBits 7 0 0 (fieldAt (generateBitStream text) (8 * len pre) 8)
     = Some (code c).
Proof.
  intros Hascii Htext.
  pose proof (generateBitStream_ascii text Hascii) as Hgen.
  split; [exact Hgen|].
  rewrite Hgen, Htext, flat_map_app. cbn [flat_map].
  pose proof (fieldAt_app_here (flat_map charBits pre) (charBits c)
                               (flat_map charBits post)) as Hfield.
  rewrite (len_flat_map_bits charBits pre len_charBits), len_charBits in Hfield.
  fold (len pre) in Hfield. rewrite Hfield.
  rewrite rangeBits_literal by apply len_charBits.
  rewrite bigEndian_charBits. reflexivity.
Qed.

Lemma X11_generated_bits_read_back_witness :
  generateBitStream (str "the rain") = flat_map charBits (str "the rain")
  /\ rangeBits 7 0 0 (fieldAt (generateBitStream (str "the rain"))
                              (8 * len (str "the ")) 8)
     = Some (code "r"%char).
Proof.
  apply (X11_generated_bits_read_back (str "the rain") (str "the ") "r"%char
           (str "ain")).
  - repeat constructor; vm_compute; reflexivity.
  - reflexivity.
Defined.

(** * The frequency table *)

Lemma countOf_increment counts char r :
  countOf (increment counts char) r
  = if char =? r then add (countOf counts char) 1 else countOf counts r.
Proof.
  induction counts as [|[key count] rest IH]; cbn [increment countOf].
  - destruct (Z.eqb_spec char r); reflexivity.
  - destruct (Z.eqb_spec key char) as [->|Hkey]; cbn [countOf].
    + destruct (Z.eqb_spec char r); reflexivity.
    + rewrite IH.
      destruct (Z.eqb_spec key r) as [->|]; [|reflexivity].
      destruct (Z.eqb_spec char r); [congruence|reflexivity].
Qed.

Lemma tally_countOf : forall runes counts r,
  (forall k, 0 <= countOf counts k) ->
  (forall k, countOf counts k + Z.of_nat (List.length runes) <= max_int) ->
  countOf (tally runes counts) r
  = countOf counts r + Z.of_nat (count_occ Z.eq_dec (map snd runes) r).
Proof.
  induction runes as [|[i char] rest IH]; intros counts r Hpos Hmax.
  - unfold tally. cbn [fold_left map count_occ]. lia.
  - cbn [tally fold_left snd map count_occ]. fold (tally rest (increment counts char)).
    assert (Hstep : forall k, countOf (increment counts char) k
                    = if char =? k then countOf counts char + 1
                      else countOf counts k).
    { intros k. rewrite countOf_increment.
      destruct (char =? k); [|reflexivity].
      apply add_small. specialize (Hpos char). specialize (Hmax char).
      cbn [List.length] in Hmax. unfold min_int, max_int in *. lia. }
    rewrite IH.
    + rewrite Hstep. destruct (Z.eqb_spec char r) as [->|Hne].
      * destruct (Z.eq_dec r r); [|congruence]. lia.
      * destruct (Z.eq_dec char r); [congruence|]. reflexivity.
    + intros k. rewrite Hstep. pose proof (Hpos k). pose proof (Hpos char).
      destruct (char =? k); lia.
    + intros k. rewrite Hstep. pose proof (Hmax k). pose proof (Hmax char).
      cbn [List.length] in *. destruct (char =? k); lia.
Qed.

Lemma totalCount_increment counts char :
  Forall (fun p => snd p < max_int /\ min_int <= snd p) counts ->
  totalCount (increment counts char) = totalCount counts + 1.
Proof.
  induction counts as [|[key count] rest IH]; intros Hfit.
  - reflexivity.
  - inversion Hfit as [|? ? [Hcount Hlow] Hrest]; subst. cbn [snd] in *.
    cbn [increment]. destruct (key =? char).
    + unfold totalCount. cbn [fold_right snd].
      rewrite add_small by (unfold min_int, max_int in *; lia). lia.
    + unfold totalCount in *. cbn [fold_right snd]. rewrite IH by assumption. lia.
Qed.

Lemma increment_bound counts char bound :
  0 <= bound < max_int ->
  Forall (fun p => 0 <= snd p <= bound) counts ->
  Forall (fun p => 0 <= snd p <= bound + 1) (increment counts char).
Proof.
  intros Hbound. induction counts as [|[key count] rest IH]; intros Hall.
  - cbn [increment]. constructor; [|constructor]. cbn [snd].
    rewrite add_small by (unfold min_int, max_int; lia). lia.
  - inversion Hall as [|? ? Hcount Hrest]; subst. cbn [snd] in *.
    cbn [increment]. destruct (key =? char).
    + constructor.
      * cbn [snd]. rewrite add_small by (unfold min_int, max_int in *; lia). lia.
      * eapply Forall_impl; [|exact Hrest]. cbn. intros p Hp. lia.
    + constructor; [cbn [snd]; lia|]. apply IH. assumption.
Qed.

Lemma tally_totalCount : forall runes counts bound,
  0 <= bound -> bound + Z.of_nat (List.length runes) <= max_int ->
  Forall (fun p => 0 <= snd p <= bound) counts ->
  totalCount (tally runes counts)
  = totalCount counts + Z.of_nat (List.length runes).
Proof.
  induction runes as [|[i char] rest IH]; intros counts bound Hbound Hmax Hall.
  - unfold tally. cbn [fold_left List.length]. lia.
  - cbn [tally fold_left snd]. fold (tally rest (increment counts char)).
    cbn [List.length] in *.
    rewrite (IH _ (bound + 1)); try lia.
    + rewrite totalCount_increment; [lia|].
      eapply Forall_impl; [|exact Hall]. cbn.
      intros p Hp. unfold min_int, max_int in *. lia.
    + apply increment_bound; [unfold max_int in *; lia|assumption].
Qed.

(** X12: the table that the loop of lines 18-20 builds holds, for every
    rune, the number of times that rune occurs in [data]; a rune that does
    not occur reads as 0. *)
Theorem X12_charCounts_counts_occurrences data r :
  len data <= max_int ->
  countOf (charCounts data) r
  = Z.of_nat (count_occ Z.eq_dec (map snd (rangeString data)) r).
Proof.
  intros Hfit. unfold charCounts. rewrite tally_countOf.
  - reflexivity.
  - intros k. cbn. lia.
  - intros k. cbn [countOf]. pose proof (length_rangeFrom data 0 0).
    unfold rangeString, len in *. lia.
Qed.

Lemma X12_charCounts_counts_occurrences_witness :
  countOf (charCounts (str "abracadabra")) 97
  = Z.of_nat (count_occ Z.eq_dec (map snd (rangeString (str "abracadabra"))) 97).
Proof.
  apply (X12_charCounts_counts_occurrences (str "abracadabra") 97).
  vm_compute. discriminate.
Defined.

(** X13: the entries of the table add up to the number of runes of [data],
    which is at most [len(data)], the divisor of line 23, and is equal to it
    when [data] is ASCII. *)
Theorem X13_counts_add_up_to_runes data :
  len data <= max_int ->
  totalCount (charCounts data) = Z.of_nat (List.length (rangeString data))
  /\ totalCount (charCounts data) <= len data
  /\ (Forall (fun b => code b < 128) data ->
      totalCount (charCounts data) = len data).
Proof.
  intros Hfit.
  pose proof (length_rangeFrom data 0 0) as Hle. fold (rangeString data) in Hle.
  assert (Htotal : totalCount (charCounts data)
                   = Z.of_nat (List.length (rangeString data))).
  { unfold charCounts. rewrite (tally_totalCount _ _ 0).
    - reflexivity.
    - lia.
    - unfold len in Hfit. lia.
    - constructor. }
  split; [exact Htotal|]. split; [unfold len; lia|].
  intros Hascii. rewrite Htotal. unfold len, rangeString.
  rewrite <- (length_map snd), (rangeFrom_ascii data 0 Hascii), length_map.
  reflexivity.
Qed.

Lemma X13_counts_add_up_to_runes_witness :
  totalCount (charCounts (str "abracadabra"))
  = Z.of_nat (List.length (rangeString (str "abracadabra")))
  /\ totalCount (charCounts (str "abracadabra")) <= len (str "abracadabra")
  /\ (Forall (fun b => code b < 128) (str "abracadabra") ->
      totalCount (charCounts (str "abracadabra")) = len (str "abracadabra")).
Proof.
  apply (X13_counts_add_up_to_runes (str "abracadabra")).
  vm_compute. discriminate.
Defined.

(** * The output is bounded by the input *)

Lemma body_output_growth bitStream offsetBits lengthBits st st' :
  len bitStream <= max_int -> 0 <= lengthBits <= 62 ->
  reached bitStream offsetBits lengthBits st ->
  body bitStream offsetBits lengthBits st = Next st' ->
  len (output st') <= len (output st) + 2 ^ lengthBits.
Proof.
  intros Hfit Hlb Hr Hbody.
  pose proof (reached_clean _ _ _ _ Hr) as [_ Hprint].
  pose proof (pow2_le_62 lengthBits Hlb) as Hpow.
  apply body_inv in Hbody. destruct Hbody as (flag & _ & H).
  destruct H as [(_ & H)|[(_ & H)|(_ & _ & ->)]].
  - apply literalToken_inv in H. destruct H as (bits & c & _ & _ & H).
    apply emitLiteral_inv in H.
    destruct H as [[_ ->]|(_ & w & _ & -> & _)]; cbn [output];
      rewrite ?len_snoc; lia.
  - apply backReferenceToken_inv in H.
    destruct H as (obs & o & lbs & l & _ & _ & Hs & Hl & H).
    apply slice_inv in Hs. destruct Hs as (Hlo & Hle & Hhi & ->).
    set (p := add (add (position st) 1) offsetBits) in *.
    assert (Hwidth : add p lengthBits - p = lengthBits).
    { destruct (Z.eq_dec lengthBits 0) as [->|].
      - unfold add. rewrite Z.add_0_r, wrap_small; unfold min_int, max_int in *; lia.
      - rewrite add_exact_le; unfold max_int in *; lia. }
    rewrite Hwidth in *.
    rewrite rangeBits_bigEndian in Hl by (try apply len_fieldAt; lia).
    injection Hl as <-.
    pose proof (bigEndian_range (fieldAt bitStream p lengthBits)) as Hrange.
    rewrite len_fieldAt in Hrange by lia.
    apply applyBackReference_inv in H; [|assumption].
    destruct H as [[_ ->]|(_ & _ & cp & w & _ & _ & Hcp & _ & -> & _)];
      cbn [output]; rewrite ?len_app; lia.
  - cbn [output]. lia.
Qed.

(** X14: a stream cannot blow the output up without bound: the output
    that a call returns has at most [2^lengthBits] bytes for every symbol of
    the bitstream, since every pass takes at least one symbol and writes at
    most [2^lengthBits - 1] copied bytes or one literal. *)
Theorem X14_output_is_bounded_by_input bitStream offsetBits lengthBits out err :
  len bitStream <= max_int -> 0 <= lengthBits <= 62 ->
  decodeLZ77 bitStream offsetBits lengthBits = Return out err ->
  len out <= 2 ^ lengthBits * len bitStream.
Proof.
  intros Hfit Hlb H. unfold decodeLZ77 in H.
  apply loop_returns_reached in H; [|apply reached_initial].
  destruct H as (st & Hr & ->).
  pose proof (pow2_le_62 lengthBits Hlb) as Hpow.
  pose proof (reached_position_le _ _ _ _ Hr) as Hle.
  enough (len (output st) <= 2 ^ lengthBits * position st) by nia.
  clear Hle. induction Hr as [|st st' Hr IH Hpos Hbody].
  - cbn [initial output position]. rewrite len_nil. lia.
  - pose proof (body_output_growth _ _ _ _ _ Hfit Hlb Hr Hbody).
    pose proof (body_advances _ _ _ _ _ Hbody). nia.
Qed.

Lemma X14_output_is_bounded_by_input_witness :
  len (str "AAAA") <= 2 ^ 2 * len (str "0010000011111").
Proof.
  apply (X14_output_is_bounded_by_input (str "0010000011111") 1 2 (str "AAAA") None).
  - vm_compute. discriminate.
  - lia.
  - vm_compute. reflexivity.
Defined.

(** * The calls of [main] *)

(** X15: [main] decodes the stream that [generateBitStream] makes of its
    text with [offsetBits] 9, 10 or 11 and [lengthBits] 3, 4 or 5 (lines
    152-170). Whatever the text, none of these calls panics: each returns
    an output with a nil error or with one of the errors. *)
Theorem X15_calls_of_main_return text offsetBits lengthBits :
  8 * len text + 16 <= max_int ->
  In offsetBits [9; 10; 11] -> In lengthBits [3; 4; 5] ->
  exists out err,
    decodeLZ77 (generateBitStream text) offsetBits lengthBits = Return out err.
Proof.
  intros Hfit Hob Hlb.
  assert (Hlen : len (generateBitStream text) <= 8 * len text).
  { pose proof (length_rangeFrom text 0 0) as Hle.
    unfold generateBitStream.
    rewrite (len_flat_map_bits (fun p => runeBits (snd p))) by reflexivity.
    unfold rangeString, len. lia. }
  unfold decodeLZ77. apply loop_safe.
  - cbn [In] in Hob. lia.
  - cbn [In] in Hlb. lia.
  - cbn [In] in Hob, Hlb. lia.
  - apply reached_initial.
  - cbn [position initial]. unfold len. lia.
Qed.

Lemma X15_calls_of_main_return_witness :
  exists out err,
    decodeLZ77 (generateBitStream (str "the rain in spain")) 9 3 = Return out err.
Proof.
  apply (X15_calls_of_main_return (str "the rain in spain") 9 3).
  - vm_compute. discriminate.
  - cbn [In]. auto.
  - cbn [In]. auto.
Defined.

(** ** Sample runs *)

Example back_reference_overlaps :
  applyBackReference 9 2 5 (str "xab") (str "xab") 20
  = Next (mkState (str "xabababa") (str "xabababa") 20).
Proof. vm_compute. reflexivity. Qed.

Example decode_AB :
  decodeLZ77 (str "001000001001000010") 9 3 = Return (str "AB") None.
Proof. vm_compute. reflexivity. Qed.

Example decode_literal_and_copy :
  decodeLZ77 (str "0010000011111") 1 2 = Return (str "AAAA") None.
Proof. vm_compute. reflexivity. Qed.

Example decode_skips_far_offset :
  decodeLZ77 (str "0010000011000000101001") 9 3 = Return (str "A") None.
Proof. vm_compute. reflexivity. Qed.
